(** * Prefix exclusion for WSTUNNEL_HOST: conf/allowedips_exclude.go

    A shallow embedding of the allowed-IPs exclusion pass of the WireGuard
    Windows client with wstunnel support, and the properties of its
    specification.

    Layout:
    - [netip]: the fragment of Go's net/netip the code calls (addresses,
      prefixes, masking, overlap and containment), after the library's
      source;
    - [binary]: encoding/binary's big-endian helpers on byte slices;
    - the functions of conf/allowedips_exclude.go: the subtraction engine,
      the list driver, the parser of the exclusion specification and the
      rewriter of the peers;
    - the predicates the properties are stated with;
    - lemmas: bits and bytes, what the netip predicates compute on valid
      canonical prefixes, termination, the recursion as a relation, the
      list driver;
    - the properties C1 to C10. *)

From Stdlib Require Import ZArith List Bool Lia String Ascii Sorted.
From Stdlib Require Import DecimalString.
From coqutil Require Import Z.bitblast.
Import ListNotations.
Local Open Scope Z_scope.

(** ** Outcomes of a Go computation

    [Ret] is a normal return, [Panic] a run-time panic (an index out of
    range), [OutOfFuel] the recursion budget of the model running out. *)
Inductive outcome (A : Type) : Type :=
| Ret (a : A)
| Panic
| OutOfFuel.
Arguments Ret {A} a.
Arguments Panic {A}.
Arguments OutOfFuel {A}.

(** ** net/netip *)
Module netip.

(** An address is the zero [Addr], an IPv4 address (a 32-bit value) or an
    IPv6 address (a 128-bit value, IPv4-mapped ones included).  Zones are
    left out: [PrefixFrom], [Addr.Prefix] and [ParsePrefix] strip or refuse
    them, so the address of a [Prefix] never has one. *)
Inductive Addr : Type :=
| AddrZero
| Addr4 (v : Z)
| Addr6 (v : Z).

(** [Bits] is -1 for an invalid prefix (Go stores bits+1, with 0 for
    invalid). *)
Record Prefix : Type := mkPrefix { Prefix_Addr : Addr; Prefix_Bits : Z }.

(** The zero value [Prefix{}]. *)
Definition zeroPrefix : Prefix := mkPrefix AddrZero (-1).

Definition Addr_eq_dec (a b : Addr) : {a = b} + {a <> b}.
Proof. decide equality; apply Z.eq_dec. Defined.

Definition Prefix_eq_dec (p q : Prefix) : {p = q} + {p <> q}.
Proof. decide equality; [apply Z.eq_dec | apply Addr_eq_dec]. Defined.

Definition Addr_isZero (ip : Addr) : bool :=
  match ip with AddrZero => true | _ => false end.

Definition Addr_Is4 (ip : Addr) : bool :=
  match ip with Addr4 _ => true | _ => false end.

Definition Addr_BitLen (ip : Addr) : Z :=
  match ip with AddrZero => 0 | Addr4 _ => 32 | Addr6 _ => 128 end.

(** The integer value of an address (its 32 or 128 bits, big-endian). *)
Definition Addr_value (ip : Addr) : Z :=
  match ip with AddrZero => 0 | Addr4 v => v | Addr6 v => v end.

(** [Addr.Compare(ip2) < 0]: shorter addresses first, then by value. *)
Definition Addr_Less (ip ip2 : Addr) : bool :=
  (Addr_BitLen ip <? Addr_BitLen ip2)
  || ((Addr_BitLen ip =? Addr_BitLen ip2) && (Addr_value ip <? Addr_value ip2)).

(** The [n] leading bits of a [w]-bit word (Go's [mask6] at width 128). *)
Definition mask (w n : Z) : Z := Z.shiftl (Z.ones n) (w - n).

Definition PrefixFrom (ip : Addr) (bits : Z) : Prefix :=
  if negb (Addr_isZero ip) && (0 <=? bits) && (bits <=? Addr_BitLen ip)
  then mkPrefix ip bits
  else mkPrefix ip (-1).

Definition Prefix_IsValid (p : Prefix) : bool := 0 <=? Prefix_Bits p.

(** [Addr.Prefix(b)]: [None] is the error return (whose prefix is
    [Prefix{}]). *)
Definition Addr_Prefix (ip : Addr) (b : Z) : option Prefix :=
  if b <? 0 then None
  else match ip with
       | AddrZero => Some zeroPrefix
       | Addr4 v =>
           if 32 <? b then None
           else Some (PrefixFrom (Addr4 (Z.land v (mask 32 b))) b)
       | Addr6 v =>
           if 128 <? b then None
           else Some (PrefixFrom (Addr6 (Z.land v (mask 128 b))) b)
       end.

Definition Prefix_Masked (p : Prefix) : Prefix :=
  match Addr_Prefix (Prefix_Addr p) (Prefix_Bits p) with
  | Some m => m
  | None => zeroPrefix
  end.

Definition Prefix_Contains (p : Prefix) (ip : Addr) : bool :=
  if negb (Prefix_IsValid p) then false
  else
    let f1 := Addr_BitLen (Prefix_Addr p) in
    let f2 := Addr_BitLen ip in
    if (f1 =? 0) || (f2 =? 0) || negb (f1 =? f2) then false
    else if Addr_Is4 ip then
      (Z.shiftr (Z.lxor (Addr_value ip) (Addr_value (Prefix_Addr p)))
                (32 - Prefix_Bits p)) mod 2 ^ 32 =? 0
    else
      Z.land (Z.lxor (Addr_value ip) (Addr_value (Prefix_Addr p)))
             (mask 128 (Prefix_Bits p)) =? 0.

Definition Prefix_Overlaps (p o : Prefix) : bool :=
  if negb (Prefix_IsValid p) || negb (Prefix_IsValid o) then false
  else if Prefix_eq_dec p o then true
  else if negb (Bool.eqb (Addr_Is4 (Prefix_Addr p)) (Addr_Is4 (Prefix_Addr o)))
  then false
  else
    let minBits :=
      if Prefix_Bits p <? Prefix_Bits o then Prefix_Bits p else Prefix_Bits o in
    if minBits =? 0 then true
    else match Addr_Prefix (Prefix_Addr p) minBits with
         | None => false
         | Some p' =>
             match Addr_Prefix (Prefix_Addr o) minBits with
             | None => false
             | Some o' =>
                 if Addr_eq_dec (Prefix_Addr p') (Prefix_Addr o')
                 then true else false
             end
         end.

(** Big-endian bytes of the low [8 * n] bits of [v]. *)
Fixpoint be_bytes (n : nat) (v : Z) : list Z :=
  match n with
  | O => []
  | S m => (Z.shiftr v (8 * Z.of_nat m)) mod 256 :: be_bytes m v
  end.

(** The value of a big-endian byte string. *)
Definition be_value (bs : list Z) : Z :=
  fold_left (fun acc b => Z.lor (Z.shiftl acc 8) b) bs 0.

(** [Addr.As4()]; panics on an address that is neither IPv4 nor
    IPv4-mapped. *)
Definition Addr_As4 (ip : Addr) : option (list Z) :=
  match ip with
  | Addr4 v => Some (be_bytes 4 v)
  | Addr6 v =>
      if Z.shiftr v 32 =? 65535 then Some (be_bytes 4 v) else None
  | AddrZero => None
  end.

(** [Addr.As16()]: an IPv4 address comes out IPv4-mapped. *)
Definition Addr_As16 (ip : Addr) : list Z :=
  match ip with
  | AddrZero => be_bytes 16 0
  | Addr4 v => be_bytes 16 (Z.lor (Z.shiftl 65535 32) v)
  | Addr6 v => be_bytes 16 v
  end.

Definition AddrFrom4 (addr : list Z) : Addr := Addr4 (be_value addr).
Definition AddrFrom16 (addr : list Z) : Addr := Addr6 (be_value addr).

End netip.
Import netip.

(** ** encoding/binary, big-endian *)
Module binary.

(** [binary.BigEndian.Uint32(b)] for a 4-byte [b]. *)
Definition BigEndian_Uint32 (b : list Z) : Z :=
  Z.lor (Z.lor (Z.lor (nth 3 b 0) (Z.shiftl (nth 2 b 0) 8))
               (Z.shiftl (nth 1 b 0) 16))
        (Z.shiftl (nth 0 b 0) 24).

(** [binary.BigEndian.PutUint32(b, v)] into a 4-byte [b]. *)
Definition BigEndian_PutUint32 (v : Z) : list Z :=
  [ (Z.shiftr v 24) mod 256; (Z.shiftr v 16) mod 256;
    (Z.shiftr v 8) mod 256; v mod 256 ].

End binary.
Import binary.

(** ** conf/allowedips_exclude.go: the subtraction engine *)

Definition maxPrefixBits (p : Prefix) : Z :=
  if Addr_Is4 (Prefix_Addr p) then 32 else 128.

(** [addr[i] = f(addr[i])] on a byte array; [None] when [i] is out of range
    (Go panics). *)
Definition update_byte (addr : list Z) (i : Z) (f : Z -> Z) : option (list Z) :=
  if (0 <=? i) && (i <? Z.of_nat (List.length addr)) then
    Some (firstn (Z.to_nat i) addr
            ++ f (nth (Z.to_nat i) addr 0) :: skipn (S (Z.to_nat i)) addr)
  else None.

(** Go's [/] and [%] on int truncate towards zero; the shifted constant 1 is
    a byte, so the shift wraps at 8 bits. *)
Definition setBit128 (addr : list Z) (bit : Z) : option (list Z) :=
  let byteIndex := Z.quot bit 8 in
  let bitIndex := 7 - Z.rem bit 8 in
  update_byte addr byteIndex (fun b => Z.lor b ((Z.shiftl 1 bitIndex) mod 256)).

(** [uint32(x)] of an int. *)
Definition uint32 (x : Z) : Z := x mod 2 ^ 32.

(** [x << s] on uint32: shift counts of 32 and more give 0. *)
Definition shl32 (x s : Z) : Z :=
  if s <? 32 then (Z.shiftl x s) mod 2 ^ 32 else 0.

Definition splitPrefix (p : Prefix) : outcome (Prefix * Prefix) :=
  let bits := Prefix_Bits p in
  if Addr_Is4 (Prefix_Addr p) then
    match Addr_As4 (Prefix_Addr p) with
    | None => Panic
    | Some addr =>
        let v := BigEndian_Uint32 addr in
        let bit := shl32 (uint32 1) (uint32 (31 - uint32 bits)) in
        let right := Z.lor v bit in
        let rightAddr := BigEndian_PutUint32 right in
        Ret (PrefixFrom (Prefix_Addr p) (bits + 1),
             PrefixFrom (AddrFrom4 rightAddr) (bits + 1))
    end
  else
    let addr := Addr_As16 (Prefix_Addr p) in
    match setBit128 addr bits with
    | None => Panic
    | Some addr' =>
        Ret (PrefixFrom (Prefix_Addr p) (bits + 1),
             PrefixFrom (AddrFrom16 addr') (bits + 1))
    end.

(** [subtractPrefix] with a budget of [fuel] nested calls. *)
Fixpoint subtractPrefix_fuel (fuel : nat) (base remove : Prefix)
  : outcome (list Prefix) :=
  match fuel with
  | O => OutOfFuel
  | S fuel' =>
      let base := Prefix_Masked base in
      let remove := Prefix_Masked remove in
      if negb (Prefix_Overlaps base remove) then Ret [base]
      else if Prefix_Contains remove (Prefix_Addr base)
              && (Prefix_Bits remove <=? Prefix_Bits base) then Ret []
      else if maxPrefixBits base <=? Prefix_Bits base then Ret [base]
      else
        match splitPrefix base with
        | Ret (left_, right_) =>
            if Prefix_Overlaps remove left_ then
              match subtractPrefix_fuel fuel' left_ remove with
              | Ret l => Ret (l ++ [right_])
              | Panic => Panic
              | OutOfFuel => OutOfFuel
              end
            else
              match subtractPrefix_fuel fuel' right_ remove with
              | Ret r => Ret ([left_] ++ r)
              | Panic => Panic
              | OutOfFuel => OutOfFuel
              end
        | Panic => Panic
        | OutOfFuel => OutOfFuel
        end
  end.

(** The chain of calls of [subtractPrefix]: the (masked) base of the outer
    call, then that of each nested call.  Same tests and same recursion as
    [subtractPrefix_fuel]; only what is returned differs. *)
Fixpoint subtractPrefix_calls (fuel : nat) (base remove : Prefix)
  : outcome (list Prefix) :=
  match fuel with
  | O => OutOfFuel
  | S fuel' =>
      let base := Prefix_Masked base in
      let remove := Prefix_Masked remove in
      if negb (Prefix_Overlaps base remove) then Ret [base]
      else if Prefix_Contains remove (Prefix_Addr base)
              && (Prefix_Bits remove <=? Prefix_Bits base) then Ret [base]
      else if maxPrefixBits base <=? Prefix_Bits base then Ret [base]
      else
        match splitPrefix base with
        | Ret (left_, right_) =>
            match subtractPrefix_calls
                    fuel' (if Prefix_Overlaps remove left_ then left_ else right_)
                    remove with
            | Ret calls => Ret (base :: calls)
            | Panic => Panic
            | OutOfFuel => OutOfFuel
            end
        | Panic => Panic
        | OutOfFuel => OutOfFuel
        end
  end.

(** [subtractPrefix]: what the recursion returns.  129 nested calls are
    enough on every input ([subtractPrefix_spec] below), so the last branch
    is never taken. *)
Definition subtractPrefix (base remove : Prefix) : list Prefix :=
  match subtractPrefix_fuel 129 base remove with
  | Ret l => l
  | Panic | OutOfFuel => []
  end.

(** ** conf/allowedips_exclude.go: the list driver *)

(** The innermost loop of [subtractPrefixList]: one exclusion [r] folded over
    the fragments accumulated so far. *)
Definition subtractFragments (fragments : list Prefix) (r : Prefix) : list Prefix :=
  fold_left (fun newFragments f => newFragments ++ subtractPrefix f (Prefix_Masked r))
            fragments [].

(** The loop over [remove] for one base [b]; exclusions of the other family
    are skipped ([continue]). *)
Definition baseFragments (b : Prefix) (remove : list Prefix) : list Prefix :=
  fold_left (fun fragments r =>
               if negb (Bool.eqb (Addr_Is4 (Prefix_Addr b)) (Addr_Is4 (Prefix_Addr r)))
               then fragments
               else subtractFragments fragments r)
            remove [Prefix_Masked b].

Definition subtractPrefixList (base remove : list Prefix) : list Prefix :=
  fold_left (fun out b => out ++ baseFragments b remove) base [].

Definition prefixFromAddr (addr : Addr) : Prefix :=
  if Addr_Is4 addr then PrefixFrom addr 32 else PrefixFrom addr 128.

(** ** conf/allowedips_exclude.go: parsing and the rewriter *)

(** [strings.Split(s, sep)] for a one-byte separator. *)
Fixpoint Split_from (cur s : string) (sep : ascii) : list string :=
  match s with
  | EmptyString => [cur]
  | String c s' =>
      if Ascii.eqb c sep then cur :: Split_from EmptyString s' sep
      else Split_from (cur ++ String c EmptyString) s' sep
  end.

Definition Split (s : string) (sep : ascii) : list string :=
  Split_from EmptyString s sep.

(** [strings.Contains(s, sep)] for a one-byte [sep]. *)
Fixpoint Contains_byte (s : string) (sep : ascii) : bool :=
  match s with
  | EmptyString => false
  | String c s' => Ascii.eqb c sep || Contains_byte s' sep
  end.

Definition comma : ascii := Ascii.ascii_of_nat 44.
Definition slash : ascii := Ascii.ascii_of_nat 47.

(** The errors the pass returns, one constructor per [fmt.Errorf]. *)
Inductive error : Type :=
| ErrInvalidListEntry (s : string)
| ErrInvalidPrefix (part : string)
| ErrResolve (part : string)
| ErrInvalidResolved (part : string).

Inductive result (A : Type) : Type :=
| Ok (a : A)
| Err (e : error).
Arguments Ok {A} a.
Arguments Err {A} e.

(** The lines written with [log.Printf]. *)
Inductive LogLine : Type :=
| LogExcludes (excludes : string)
| LogUpdated (peer : nat) (before after : string).

(** Modelled from the spec: [conf.Peer] and [conf.Config] are declared in
    another file of package conf.  A peer owns an ordered list of allowed
    ranges; the configuration holds the exclusion specification
    ([Interface.WstunnelHost]) and the peers.  Only the fields the pass
    reads or writes are kept. *)
Record Peer : Type := mkPeer { AllowedIPs : list Prefix }.
Record Config : Type := mkConfig { WstunnelHost : string; Peers : list Peer }.

Section Rewriter.

(** Library and platform functions the pass calls: [strings.TrimSpace],
    [netip.ParsePrefix], [netip.ParseAddr], [netip.Prefix.String] and
    [resolveHostname], which package conf defines in another file; [None]
    is an error return.  An address that [ParseAddr] returns with a zone
    loses it in [PrefixFrom], so zones are left out here too. *)
Variable TrimSpace : string -> string.
Variable ParsePrefix : string -> option Prefix.
Variable ParseAddr : string -> option Addr.
Variable resolveHostname : string -> option string.
Variable Prefix_String : Prefix -> string.

Fixpoint splitCommaList_loop (s : string) (splits out : list string)
  : result (list string) :=
  match splits with
  | [] => Ok out
  | split :: rest =>
      let trim := TrimSpace split in
      if (String.length trim =? 0)%nat then Err (ErrInvalidListEntry s)
      else splitCommaList_loop s rest (out ++ [trim])
  end.

Definition splitCommaList (s : string) : result (list string) :=
  splitCommaList_loop s (Split s comma) [].

Fixpoint parseWstunnelHostExcludes_loop (parts : list string)
         (excludes : list Prefix) : result (list Prefix) :=
  match parts with
  | [] => Ok excludes
  | part :: rest =>
      if Contains_byte part slash then
        match ParsePrefix part with
        | None => Err (ErrInvalidPrefix part)
        | Some p =>
            parseWstunnelHostExcludes_loop rest (excludes ++ [Prefix_Masked p])
        end
      else
        match ParseAddr part with
        | Some addr =>
            parseWstunnelHostExcludes_loop rest (excludes ++ [prefixFromAddr addr])
        | None =>
            match resolveHostname part with
            | None => Err (ErrResolve part)
            | Some resolved =>
                match ParseAddr resolved with
                | None => Err (ErrInvalidResolved part)
                | Some addr =>
                    parseWstunnelHostExcludes_loop
                      rest (excludes ++ [prefixFromAddr addr])
                end
            end
        end
  end.

Definition parseWstunnelHostExcludes (s : string) : result (list Prefix) :=
  match splitCommaList s with
  | Err e => Err e
  | Ok parts => parseWstunnelHostExcludes_loop parts []
  end.

Definition prefixListToString (prefixes : list Prefix) : string :=
  if (List.length prefixes =? 0)%nat then EmptyString
  else String.concat ", " (map Prefix_String prefixes).

(** The loop over [config.Peers], from index [i] on: the rewritten peers
    and the lines logged. *)
Fixpoint rewritePeers (i : nat) (peers : list Peer) (excludes : list Prefix)
  : list Peer * list LogLine :=
  match peers with
  | [] => ([], [])
  | peer :: rest =>
      let '(rest', logs) := rewritePeers (S i) rest excludes in
      if (List.length (AllowedIPs peer) =? 0)%nat then (peer :: rest', logs)
      else
        let before := prefixListToString (AllowedIPs peer) in
        let peer' := mkPeer (subtractPrefixList (AllowedIPs peer) excludes) in
        let after := prefixListToString (AllowedIPs peer') in
        (peer' :: rest',
         (if negb (String.eqb before after)
          then [LogUpdated (i + 1) before after] else []) ++ logs)
  end.

(** The configuration after the call, the lines logged and the error
    returned ([None] for nil). *)
Definition ApplyWstunnelHostExclusions (config : Config)
  : Config * list LogLine * option error :=
  if String.eqb (TrimSpace (WstunnelHost config)) EmptyString
  then (config, [], None)
  else
    match parseWstunnelHostExcludes (WstunnelHost config) with
    | Err err => (config, [], Some err)
    | Ok excludes =>
        if (List.length excludes =? 0)%nat then (config, [], None)
        else
          let '(peers, logs) := rewritePeers 0 (Peers config) excludes in
          (mkConfig (WstunnelHost config) peers,
           LogExcludes (prefixListToString excludes) :: logs, None)
    end.

End Rewriter.

(** [strings.TrimSpace] on ASCII text: leading and trailing tab, line feed,
    vertical tab, form feed, carriage return and space are cut.  (Go also
    cuts Unicode white space; the instances below are ASCII.) *)
Definition isSpace (c : ascii) : bool :=
  let n := Ascii.nat_of_ascii c in
  ((9 <=? n) && (n <=? 13))%nat || (n =? 32)%nat.

Fixpoint trimLeft (s : string) : string :=
  match s with
  | String c s' => if isSpace c then trimLeft s' else s
  | EmptyString => EmptyString
  end.

Fixpoint trimRight (s : string) : string :=
  match s with
  | EmptyString => EmptyString
  | String c s' =>
      match trimRight s' with
      | EmptyString => if isSpace c then EmptyString else String c EmptyString
      | t => String c t
      end
  end.

Definition TrimSpace_ascii (s : string) : string := trimRight (trimLeft s).

(** ** tunnel: the summary of the allowed IPs *)

Section Summary.

(** [netip.Prefix.String], a library function. *)
Variable Prefix_String : Prefix -> string.

(** [fmt.Sprintf("peer %d: %s", n, s)]. *)
Definition sprintf_peer (n : nat) (s : string) : string :=
  ("peer " ++ NilZero.string_of_uint (Nat.to_uint n) ++ ": " ++ s)%string.

(** The loop of [allowedIPsSummary] over [conf.Peers], from index [i] on;
    [parts] is what was appended so far. *)
Fixpoint allowedIPsSummary_loop (i : nat) (peers : list Peer)
         (parts : list string) : list string :=
  match peers with
  | [] => parts
  | peer :: rest =>
      if (List.length (AllowedIPs peer) =? 0)%nat
      then allowedIPsSummary_loop (S i) rest parts
      else
        let ips := map Prefix_String (AllowedIPs peer) in
        allowedIPsSummary_loop
          (S i) rest (parts ++ [sprintf_peer (i + 1) (String.concat ", " ips)])
  end.

(** [allowedIPsSummary(conf)]; [None] is the nil pointer. *)
Definition allowedIPsSummary (conf : option Config) : string :=
  match conf with
  | None => EmptyString
  | Some c => String.concat "; " (allowedIPsSummary_loop 0 (Peers c) [])
  end.

End Summary.

(** * Vocabulary of the properties *)

(** ** Valid canonical prefixes

    A prefix is [normal] when it is valid and masked: family [f], [n] leading
    bits fixed, the other [width f - n] bits of its address [v] zero. *)

Inductive family : Type := V4 | V6.

Definition family_eq_dec (f g : family) : {f = g} + {f <> g}.
Proof. decide equality. Defined.

Definition width (f : family) : Z :=
  match f with V4 => 32 | V6 => 128 end.

Definition addr_of (f : family) (v : Z) : Addr :=
  match f with V4 => Addr4 v | V6 => Addr6 v end.

Definition prefix_of (f : family) (v n : Z) : Prefix :=
  mkPrefix (addr_of f v) n.

Definition aligned (w v n : Z) : Prop :=
  0 <= n <= w /\ 0 <= v < 2 ^ w /\ v mod 2 ^ (w - n) = 0.

Inductive normal : Prefix -> Prop :=
| normal_intro (f : family) (v n : Z) :
    aligned (width f) v n -> normal (prefix_of f v n).

(** An address as Go's type has it: its value fits its width. *)
Definition addr_wf (ip : Addr) : Prop :=
  match ip with
  | AddrZero => True
  | Addr4 v => 0 <= v < 2 ^ 32
  | Addr6 v => 0 <= v < 2 ^ 128
  end.

(** ** Predicates of the properties *)

(** [covers p a]: address [a] lies in prefix [p]. *)
Definition covers (p : Prefix) (a : Addr) : Prop := Prefix_Contains p a = true.

(** [masked p]: [Masked] leaves [p] as it is. *)
Definition masked (p : Prefix) : Prop := Prefix_Masked p = p.

(** A canonical prefix: valid and in masked form. *)
Definition canonical (p : Prefix) : Prop :=
  Prefix_IsValid p = true /\ masked p.

Definition same_family (p q : Prefix) : Prop :=
  Addr_Is4 (Prefix_Addr p) = Addr_Is4 (Prefix_Addr q).

(** All address bits beyond the prefix length are zero. *)
Definition low_bits_zero (p : Prefix) : Prop :=
  forall i, 0 <= i < Addr_BitLen (Prefix_Addr p) - Prefix_Bits p ->
            Z.testbit (Addr_value (Prefix_Addr p)) i = false.

(** [Addr.Is6]. *)
Definition Addr_Is6 (ip : Addr) : bool :=
  match ip with Addr6 _ => true | _ => false end.

(** [r] is of the family opposite to that of [b]. *)
Definition opposite_family (b r : Prefix) : bool :=
  (Addr_Is4 (Prefix_Addr b) && Addr_Is6 (Prefix_Addr r))
  || (Addr_Is6 (Prefix_Addr b) && Addr_Is4 (Prefix_Addr r)).

(** The IPv4 address [a.b.c.d]. *)
Definition ip4 (a b c d : Z) : Addr :=
  Addr4 (((a * 256 + b) * 256 + c) * 256 + d).

(** [p] is a valid canonical prefix of family [f]. *)
Definition normal_in (f : family) (p : Prefix) : Prop :=
  exists v n, p = prefix_of f v n /\ aligned (width f) v n.

(** A prefix as [Masked] returns it: the zero prefix or a valid canonical
    one. *)
Definition good (p : Prefix) : Prop := p = zeroPrefix \/ normal p.

(** [fits b p]: [p] is the zero prefix, or a valid canonical prefix on the
    same side of the [Is4] test as the base [b]. *)
Definition fits (b p : Prefix) : Prop :=
  p = zeroPrefix
  \/ exists f, normal_in f p
               /\ Addr_Is4 (Prefix_Addr b) = Addr_Is4 (Prefix_Addr p).

(** [clear_of p r]: prefix [p] does not overlap the (masked) exclusion [r]. *)
Definition clear_of (p r : Prefix) : Prop :=
  Prefix_Overlaps p (Prefix_Masked r) = false.

(** [below f p q]: every address of [p] is lower than every address of [q]. *)
Definition below (f : family) (p q : Prefix) : Prop :=
  forall a b, 0 <= a < 2 ^ width f -> 0 <= b < 2 ^ width f ->
              covers p (addr_of f a) -> covers q (addr_of f b) -> a < b.

(** The fragments of one base: all zero (an invalid base), or valid
    canonical prefixes of one family in address order. *)
Definition in_order (fragments : list Prefix) : Prop :=
  Forall (fun p => p = zeroPrefix) fragments
  \/ exists f, Forall (normal_in f) fragments
               /\ StronglySorted (below f) fragments.

(** Each call of the chain has a base one bit longer than the call before. *)
Definition one_more_bit (calls : list Prefix) : Prop :=
  forall k c c',
    nth_error calls k = Some c -> nth_error calls (S k) = Some c' ->
    Prefix_Bits c' = Prefix_Bits c + 1.

(** The fragments of 192.168.1.0/24 minus 192.168.1.1/32. *)
Definition hole_punch_24 : list Prefix :=
  [ mkPrefix (ip4 192 168 1 0) 32; mkPrefix (ip4 192 168 1 2) 31;
    mkPrefix (ip4 192 168 1 4) 30; mkPrefix (ip4 192 168 1 8) 29;
    mkPrefix (ip4 192 168 1 16) 28; mkPrefix (ip4 192 168 1 32) 27;
    mkPrefix (ip4 192 168 1 64) 26; mkPrefix (ip4 192 168 1 128) 25 ].

(** ** The recursion of [subtractPrefix] as a relation

    [subtracts f u m v n l]: on the valid canonical base [v/n] and exclusion
    [u/m] of family [f], [subtractPrefix] returns [l].  One constructor per
    return statement the recursion can reach; the conditions are those of
    the code, read through [Overlaps_of] and [Contains_of]. *)
Inductive subtracts (f : family) (u m : Z) : Z -> Z -> list Prefix -> Prop :=
| sub_disjoint (v n : Z) :
    v / 2 ^ (width f - Z.min n m) <> u / 2 ^ (width f - Z.min n m) ->
    subtracts f u m v n [prefix_of f v n]
| sub_covered (v n : Z) :
    m <= n ->
    v / 2 ^ (width f - m) = u / 2 ^ (width f - m) ->
    subtracts f u m v n []
| sub_left (v n : Z) (l : list Prefix) :
    n < m ->
    v / 2 ^ (width f - n) = u / 2 ^ (width f - n) ->
    u / 2 ^ (width f - (n + 1)) = v / 2 ^ (width f - (n + 1)) ->
    subtracts f u m v (n + 1) l ->
    subtracts f u m v n
              (l ++ [prefix_of f (v + 2 ^ (width f - n - 1)) (n + 1)])
| sub_right (v n : Z) (l : list Prefix) :
    n < m ->
    v / 2 ^ (width f - n) = u / 2 ^ (width f - n) ->
    u / 2 ^ (width f - (n + 1)) <> v / 2 ^ (width f - (n + 1)) ->
    subtracts f u m (v + 2 ^ (width f - n - 1)) (n + 1) l ->
    subtracts f u m v n ([prefix_of f v (n + 1)] ++ l).

(** ** Failing tokens of the exclusion specification *)

Section TokenFailure.

Variable TrimSpace : string -> string.
Variable ParsePrefix : string -> option Prefix.
Variable ParseAddr : string -> option Addr.
Variable resolveHostname : string -> option string.

(** A trimmed, non-empty part that the parsing loop rejects: a CIDR that
    does not parse, a host name that does not resolve, or one that
    resolves to a string that is not an address. *)
Definition part_fails (part : string) : Prop :=
  (Contains_byte part slash = true /\ ParsePrefix part = None)
  \/ (Contains_byte part slash = false /\ ParseAddr part = None
      /\ resolveHostname part = None)
  \/ (Contains_byte part slash = false /\ ParseAddr part = None
      /\ exists resolved, resolveHostname part = Some resolved
                          /\ ParseAddr resolved = None).

(** A token of the specification fails: it trims to empty, or its trimmed
    form is rejected. *)
Definition token_fails (tok : string) : Prop :=
  TrimSpace tok = EmptyString \/ part_fails (TrimSpace tok).

(** What one trimmed part contributes to the exclusions. *)
Definition exclusion_of (part : string) (ex : Prefix) : Prop :=
  (Contains_byte part slash = true
   /\ exists p, ParsePrefix part = Some p /\ ex = Prefix_Masked p)
  \/ (Contains_byte part slash = false
      /\ exists addr,
          ex = prefixFromAddr addr
          /\ (ParseAddr part = Some addr
              \/ (ParseAddr part = None
                  /\ exists resolved, resolveHostname part = Some resolved
                                      /\ ParseAddr resolved = Some addr))).

End TokenFailure.

(** ** Lines of the log *)

Section LogLines.

Variable Prefix_String : Prefix -> string.


End LogLines.

(** ** A concrete environment: ASCII trimming and small parsers *)

Definition demo_ParseAddr (s : string) : option Addr :=
  if String.eqb s "10.0.0.1" then Some (ip4 10 0 0 1)
  else if String.eqb s "192.168.1.1" then Some (ip4 192 168 1 1)
  else None.

Definition demo_ParsePrefix (s : string) : option Prefix :=
  if String.eqb s "10.0.0.0/24" then Some (mkPrefix (ip4 10 0 0 0) 24)
  else if String.eqb s "192.168.1.0/24" then Some (mkPrefix (ip4 192 168 1 0) 24)
  else None.

Definition demo_resolveHostname (s : string) : option string :=
  if String.eqb s "vpn.example.com" then Some "192.168.1.1"%string else None.

(** A rendering that tells only a few prefixes apart. *)
Definition demo_Prefix_String (p : Prefix) : string :=
  if Prefix_eq_dec p (mkPrefix (ip4 10 0 0 0) 24) then "10.0.0.0/24"
  else if Prefix_eq_dec p (mkPrefix (ip4 10 0 0 1) 32) then "10.0.0.1/32"
  else if Prefix_eq_dec p (mkPrefix (ip4 192 168 1 0) 24) then "192.168.1.0/24"
  else if Prefix_eq_dec p (mkPrefix (ip4 192 168 1 1) 32) then "192.168.1.1/32"
  else "?".

Definition demo_Apply (config : Config) : Config * list LogLine * option error :=
  ApplyWstunnelHostExclusions TrimSpace_ascii demo_ParsePrefix demo_ParseAddr
                              demo_resolveHostname demo_Prefix_String config.

(** * Lemmas *)

(** ** Bit-level facts *)

Lemma pow2_pos (n : Z) : 0 <= n -> 0 < 2 ^ n.
Proof. intros; apply Z.pow_pos_nonneg; lia. Qed.

Lemma mask_land (w n v : Z) :
  0 <= n <= w ->
  Z.land v (mask w n) = 2 ^ (w - n) * ((v / 2 ^ (w - n)) mod 2 ^ n).
Proof.
  intros H. unfold mask.
  rewrite Z.mul_comm, <- Z.shiftl_mul_pow2 by lia.
  Z.bitblast.
Qed.

Lemma mask_land_range (w n v : Z) :
  0 <= n <= w -> 0 <= v < 2 ^ w ->
  Z.land v (mask w n) = 2 ^ (w - n) * (v / 2 ^ (w - n)).
Proof.
  intros H Hv. rewrite mask_land by lia. f_equal.
  apply Z.mod_small. split.
  - apply Z.div_pos; [lia | apply pow2_pos; lia].
  - apply Z.div_lt_upper_bound; [apply pow2_pos; lia|].
    rewrite <- Z.pow_add_r by lia. replace (w - n + n) with w by lia. lia.
Qed.

Lemma lxor_range (w a b : Z) :
  0 <= w -> 0 <= a < 2 ^ w -> 0 <= b < 2 ^ w -> 0 <= Z.lxor a b < 2 ^ w.
Proof.
  intros Hw Ha Hb.
  rewrite <- (Z.mod_small a (2 ^ w)), <- (Z.mod_small b (2 ^ w)) by assumption.
  replace (Z.lxor (a mod 2 ^ w) (b mod 2 ^ w))
    with (Z.lxor (a mod 2 ^ w) (b mod 2 ^ w) mod 2 ^ w).
  - apply Z.mod_pos_bound, pow2_pos; lia.
  - Z.bitblast.
Qed.

Lemma lxor_div_pow2 (a b s : Z) :
  0 <= s -> Z.lxor a b / 2 ^ s = Z.lxor (a / 2 ^ s) (b / 2 ^ s).
Proof.
  intros. rewrite <- !Z.shiftr_div_pow2 by lia. apply Z.shiftr_lxor.
Qed.

Lemma aligned_mul (w v n : Z) :
  aligned w v n -> v = 2 ^ (w - n) * (v / 2 ^ (w - n)).
Proof.
  intros (Hn & Hv & Hm).
  pose proof (pow2_pos (w - n) ltac:(lia)) as Hp.
  rewrite (Z.div_mod v (2 ^ (w - n))) at 1 by lia. lia.
Qed.

Lemma PrefixFrom_of (f : family) (v n : Z) :
  0 <= n <= width f -> PrefixFrom (addr_of f v) n = prefix_of f v n.
Proof.
  intros H. unfold PrefixFrom, prefix_of.
  replace (Addr_isZero (addr_of f v)) with false by (destruct f; reflexivity).
  replace (Addr_BitLen (addr_of f v)) with (width f) by (destruct f; reflexivity).
  destruct (Z.leb_spec 0 n); [|lia].
  destruct (Z.leb_spec n (width f)); [|lia]. reflexivity.
Qed.

Lemma Addr_Prefix_of (f : family) (v n : Z) :
  0 <= n <= width f ->
  Addr_Prefix (addr_of f v) n
  = Some (prefix_of f (Z.land v (mask (width f) n)) n).
Proof.
  intros H. unfold Addr_Prefix.
  destruct (Z.ltb_spec n 0); [lia|].
  destruct f; simpl in *.
  - destruct (Z.ltb_spec 32 n); [lia|]. now rewrite (PrefixFrom_of V4).
  - destruct (Z.ltb_spec 128 n); [lia|]. now rewrite (PrefixFrom_of V6).
Qed.

Lemma Masked_of (f : family) (v n : Z) :
  0 <= n <= width f ->
  Prefix_Masked (prefix_of f v n)
  = prefix_of f (Z.land v (mask (width f) n)) n.
Proof.
  intros H. unfold Prefix_Masked. simpl. now rewrite Addr_Prefix_of.
Qed.

Lemma aligned_land_mask (w v n : Z) :
  0 <= n <= w -> aligned w (Z.land v (mask w n)) n.
Proof.
  intros H. rewrite mask_land by lia.
  pose proof (pow2_pos (w - n) ltac:(lia)) as Hp.
  pose proof (Z.mod_pos_bound (v / 2 ^ (w - n)) (2 ^ n) (pow2_pos n ltac:(lia))) as Hq.
  assert (E : 2 ^ w = 2 ^ (w - n) * 2 ^ n)
    by (rewrite <- Z.pow_add_r by lia; f_equal; lia).
  split; [lia|]. split; [nia|].
  rewrite Z.mul_comm. apply Z.mod_mul. lia.
Qed.

Lemma land_mask_aligned (w v n : Z) :
  aligned w v n -> Z.land v (mask w n) = v.
Proof.
  intros H. pose proof H as (Hn & Hv & Hm).
  rewrite mask_land_range by lia. symmetry. now apply aligned_mul.
Qed.

(** [Masked] leaves a valid canonical prefix as it is. *)
Lemma Masked_normal (p : Prefix) : normal p -> Prefix_Masked p = p.
Proof.
  intros [f v n H]. pose proof H as (Hn & _).
  rewrite Masked_of by lia. now rewrite land_mask_aligned.
Qed.

(** [Masked] returns the zero prefix or a valid canonical one, whatever it is
    given. *)
Lemma Masked_cases (p : Prefix) :
  Prefix_Masked p = zeroPrefix \/ normal (Prefix_Masked p).
Proof.
  destruct p as [ip n]. unfold Prefix_Masked, Addr_Prefix. simpl.
  destruct (Z.ltb_spec n 0); [now left|].
  destruct ip as [|v|v]; [now left| |].
  - destruct (Z.ltb_spec 32 n); [now left|]. right.
    rewrite (PrefixFrom_of V4) by (simpl; lia).
    constructor. apply aligned_land_mask. simpl; lia.
  - destruct (Z.ltb_spec 128 n); [now left|]. right.
    rewrite (PrefixFrom_of V6) by (simpl; lia).
    constructor. apply aligned_land_mask. simpl; lia.
Qed.

Lemma Masked_idem (p : Prefix) :
  Prefix_Masked (Prefix_Masked p) = Prefix_Masked p.
Proof.
  destruct (Masked_cases p) as [E|N].
  - rewrite E. reflexivity.
  - now apply Masked_normal.
Qed.

Lemma normal_valid (p : Prefix) : normal p -> Prefix_IsValid p = true.
Proof.
  intros [f v n (Hn & _)]. unfold Prefix_IsValid. simpl.
  apply Z.leb_le. lia.
Qed.

(** A valid prefix that [Masked] leaves unchanged is [normal]. *)
Lemma canonical_normal (p : Prefix) :
  Prefix_IsValid p = true -> Prefix_Masked p = p -> normal p.
Proof.
  intros Hv Hm. destruct (Masked_cases p) as [E|N].
  - rewrite E in Hm. subst p. discriminate.
  - now rewrite Hm in N.
Qed.

(** ** Byte-level facts: big-endian encodings and [setBit128] *)

Lemma be_bytes_length (n : nat) (v : Z) : List.length (be_bytes n v) = n.
Proof. induction n; simpl; congruence. Qed.

Lemma nth_be_bytes (n j : nat) (v : Z) :
  (j < n)%nat ->
  nth j (be_bytes n v) 0 = (Z.shiftr v (8 * (Z.of_nat n - 1 - Z.of_nat j))) mod 256.
Proof.
  revert j. induction n as [|n IH]; intros j Hj; [lia|].
  destruct j as [|j]; cbn [be_bytes nth].
  - do 2 f_equal. lia.
  - rewrite IH by lia. do 2 f_equal. lia.
Qed.

Lemma fold_be_bytes (n : nat) (v acc : Z) :
  fold_left (fun a b => Z.lor (Z.shiftl a 8) b) (be_bytes n v) acc
  = Z.lor (Z.shiftl acc (8 * Z.of_nat n)) (v mod 2 ^ (8 * Z.of_nat n)).
Proof.
  revert acc. induction n as [|n IH]; intros acc.
  - cbn [be_bytes fold_left]. change (8 * Z.of_nat 0) with 0.
    rewrite Z.shiftl_0_r, Z.pow_0_r, Z.mod_1_r, Z.lor_0_r. reflexivity.
  - cbn [be_bytes fold_left]. rewrite IH.
    replace (8 * Z.of_nat (S n)) with (8 * Z.of_nat n + 8) by lia.
    change 256 with (2 ^ 8).
    assert (Hm : 0 <= 8 * Z.of_nat n) by lia.
    remember (8 * Z.of_nat n) as m.
    apply Z.bits_inj'. intros k Hk.
    rewrite !Z.lor_spec, !Z.testbit_mod_pow2 by lia.
    rewrite !Z.shiftl_spec by lia.
    destruct (Z.ltb_spec k m).
    + rewrite (Z.testbit_neg_r _ (k - m)) by lia.
      rewrite (Z.testbit_neg_r _ (k - (m + 8))) by lia.
      destruct (Z.ltb_spec k (m + 8)); [|lia]. reflexivity.
    + rewrite Z.lor_spec, Z.testbit_mod_pow2, Z.shiftr_spec, Z.shiftl_spec by lia.
      replace (k - m + m) with k by lia.
      replace (k - m - 8) with (k - (m + 8)) by lia.
      destruct (Z.ltb_spec (k - m) 8), (Z.ltb_spec k (m + 8));
        try lia; cbn [andb].
      * rewrite (Z.testbit_neg_r _ (k - (m + 8))) by lia.
        now rewrite !orb_false_r.
      * now rewrite !orb_false_r.
Qed.

Lemma be_value_be_bytes (n : nat) (v : Z) :
  be_value (be_bytes n v) = v mod 2 ^ (8 * Z.of_nat n).
Proof.
  unfold be_value. rewrite fold_be_bytes, Z.shiftl_0_l. reflexivity.
Qed.

Lemma nth_update (l : list Z) (i j : nat) (x d : Z) :
  (i < List.length l)%nat ->
  nth j (firstn i l ++ x :: skipn (S i) l) d
  = if Nat.eqb j i then x else nth j l d.
Proof.
  revert i j. induction l as [|a l IH]; intros i j Hi; simpl in Hi; [lia|].
  destruct i as [|i]; destruct j as [|j]; try reflexivity.
  cbn [firstn skipn app nth Nat.eqb]. apply IH. lia.
Qed.

Lemma update_length (l : list Z) (i : nat) (x : Z) :
  (i < List.length l)%nat ->
  List.length (firstn i l ++ x :: skipn (S i) l) = List.length l.
Proof.
  intros Hi. rewrite length_app. cbn [List.length].
  rewrite length_firstn, length_skipn. lia.
Qed.

(** On the bytes of [v], [setBit128] sets bit [127 - bit] of [v]: the bit of
    weight [2 ^ (127 - bit)], counting [bit] from the most significant end. *)
Lemma setBit128_be_bytes (v bit : Z) :
  0 <= bit < 128 ->
  setBit128 (be_bytes 16 v) bit = Some (be_bytes 16 (Z.lor v (2 ^ (127 - bit)))).
Proof.
  intros Hb. unfold setBit128, update_byte.
  rewrite be_bytes_length.
  rewrite Z.quot_div_nonneg, Z.rem_mod_nonneg by lia.
  pose proof (Z.div_mod bit 8 ltac:(lia)) as Hdm.
  pose proof (Z.mod_pos_bound bit 8 ltac:(lia)) as Hm.
  assert (Hq : 0 <= bit / 8 < 16)
    by (split; [apply Z.div_pos; lia | apply Z.div_lt_upper_bound; lia]).
  destruct (Z.leb_spec 0 (bit / 8)); [|lia].
  destruct (Z.ltb_spec (bit / 8) (Z.of_nat 16)); [|lia].
  cbn [andb]. f_equal.
  apply (nth_ext _ _ 0 0).
  - rewrite update_length, !be_bytes_length; rewrite ?be_bytes_length; lia.
  - intros j Hj. rewrite update_length in Hj by (rewrite be_bytes_length; lia).
    rewrite be_bytes_length in Hj.
    rewrite nth_update by (rewrite be_bytes_length; lia).
    rewrite !nth_be_bytes by lia.
    rewrite Z.shiftl_1_l. change 256 with (2 ^ 8).
    destruct (Nat.eqb_spec j (Z.to_nat (bit / 8))) as [E|E].
    + subst j. rewrite Z2Nat.id by lia.
      apply Z.bits_inj'. intros k Hk.
      rewrite Z.lor_spec, !Z.testbit_mod_pow2, !Z.shiftr_spec, Z.lor_spec by lia.
      rewrite !Z.pow2_bits_eqb by lia.
      destruct (Z.ltb_spec k 8); cbn [andb]; [|reflexivity].
      f_equal.
      destruct (Z.eqb_spec (7 - bit mod 8) k), (Z.eqb_spec (127 - bit)
        (k + 8 * (Z.of_nat 16 - 1 - bit / 8))); lia || reflexivity.
    + apply Z.bits_inj'. intros k Hk.
      rewrite !Z.testbit_mod_pow2, !Z.shiftr_spec, Z.lor_spec by lia.
      rewrite Z.pow2_bits_eqb by lia.
      destruct (Z.ltb_spec k 8); cbn [andb]; [|reflexivity].
      destruct (Z.eqb_spec (127 - bit) (k + 8 * (Z.of_nat 16 - 1 - Z.of_nat j)));
        [|now rewrite orb_false_r].
      exfalso. apply E. apply Nat2Z.inj. rewrite Z2Nat.id by lia. lia.
Qed.

Lemma Uint32_be_bytes (v : Z) :
  BigEndian_Uint32 (be_bytes 4 v) = v mod 2 ^ 32.
Proof.
  unfold BigEndian_Uint32. cbn [be_bytes nth].
  change (8 * Z.of_nat 3) with 24. change (8 * Z.of_nat 2) with 16.
  change (8 * Z.of_nat 1) with 8. change (8 * Z.of_nat 0) with 0.
  rewrite Z.shiftr_0_r. change 256 with (2 ^ 8).
  Z.bitblast.
Qed.

Lemma PutUint32_be_bytes (v : Z) : BigEndian_PutUint32 v = be_bytes 4 v.
Proof.
  unfold BigEndian_PutUint32. cbn [be_bytes].
  change (8 * Z.of_nat 3) with 24. change (8 * Z.of_nat 2) with 16.
  change (8 * Z.of_nat 1) with 8. change (8 * Z.of_nat 0) with 0.
  now rewrite Z.shiftr_0_r.
Qed.

(** Setting the first free bit of an aligned address adds its weight. *)
Lemma lor_half (w v n : Z) :
  aligned w v n -> n < w ->
  Z.lor v (2 ^ (w - n - 1)) = v + 2 ^ (w - n - 1).
Proof.
  intros H Hlt. pose proof H as (Hn & Hv & Hm).
  apply Z.or_to_plus.
  rewrite (aligned_mul _ _ _ H), Z.mul_comm, <- Z.shiftl_mul_pow2 by lia.
  apply Z.bits_inj'. intros k Hk.
  rewrite Z.land_spec, Z.pow2_bits_eqb, Z.testbit_0_l by lia.
  destruct (Z.eqb_spec (w - n - 1) k); [|apply andb_false_r].
  rewrite Z.shiftl_spec_low by lia. reflexivity.
Qed.

Lemma half_range (w v n : Z) :
  aligned w v n -> n < w ->
  aligned w v (n + 1) /\ aligned w (v + 2 ^ (w - n - 1)) (n + 1).
Proof.
  intros H Hlt. pose proof H as (Hn & Hv & Hm).
  pose proof (aligned_mul _ _ _ H) as Hmul.
  pose proof (pow2_pos (w - n - 1) ltac:(lia)) as Hp.
  assert (E : 2 ^ (w - n) = 2 * 2 ^ (w - n - 1)).
  { rewrite <- Z.pow_succ_r by lia. f_equal. lia. }
  assert (Ew : 2 ^ w = 2 ^ (w - n) * 2 ^ n)
    by (rewrite <- Z.pow_add_r by lia; f_equal; lia).
  pose proof (pow2_pos n ltac:(lia)) as Hpn.
  set (q := v / 2 ^ (w - n)) in *.
  assert (Hq : 0 <= q < 2 ^ n) by nia.
  unfold aligned. replace (w - (n + 1)) with (w - n - 1) by lia.
  split; (split; [lia|]); split.
  - lia.
  - rewrite Hmul, E.
    replace (2 * 2 ^ (w - n - 1) * q) with ((2 * q) * 2 ^ (w - n - 1)) by ring.
    apply Z.mod_mul. lia.
  - nia.
  - rewrite Hmul, E.
    replace (2 * 2 ^ (w - n - 1) * q + 2 ^ (w - n - 1))
      with ((2 * q + 1) * 2 ^ (w - n - 1)) by ring.
    apply Z.mod_mul. lia.
Qed.

(** ** What the netip predicates compute on valid canonical prefixes

    With [s = width - bits] free bits, a prefix of address [v] is the block
    of the addresses [a] with [a / 2 ^ s = v / 2 ^ s]. *)

Lemma Zeqb_iff (a b c d : Z) : (a = b <-> c = d) -> (a =? b) = (c =? d).
Proof.
  intros H. destruct (Z.eqb_spec a b), (Z.eqb_spec c d); tauto.
Qed.

Lemma div_pow2_range (w s x : Z) :
  0 <= s <= w -> 0 <= x < 2 ^ w -> 0 <= x / 2 ^ s < 2 ^ w.
Proof.
  intros Hs Hx. pose proof (pow2_pos s ltac:(lia)) as Hp. split.
  - apply Z.div_pos; lia.
  - apply Z.div_lt_upper_bound; [lia|]. nia.
Qed.

Lemma Contains_of (f : family) (v n a : Z) :
  0 <= n <= width f -> 0 <= v < 2 ^ width f -> 0 <= a < 2 ^ width f ->
  Prefix_Contains (prefix_of f v n) (addr_of f a)
  = (a / 2 ^ (width f - n) =? v / 2 ^ (width f - n)).
Proof.
  intros Hn Hv Ha. unfold Prefix_Contains, Prefix_IsValid. cbn [prefix_of Prefix_Bits Prefix_Addr].
  destruct (Z.leb_spec 0 n); [|lia]. cbn [negb].
  pose proof (lxor_range (width f) a v ltac:(lia) Ha Hv) as Hx.
  destruct f; cbn [addr_of Addr_BitLen Addr_Is4 Addr_value width] in *;
    cbn [Z.eqb Pos.eqb orb negb].
  - rewrite Z.shiftr_div_pow2 by lia.
    rewrite Z.mod_small by (apply (div_pow2_range 32); lia).
    rewrite lxor_div_pow2 by lia.
    apply Zeqb_iff. apply Z.lxor_eq_0_iff.
  - rewrite mask_land_range by lia.
    rewrite lxor_div_pow2 by lia.
    apply Zeqb_iff.
    pose proof (pow2_pos (128 - n) ltac:(lia)).
    rewrite <- (Z.lxor_eq_0_iff (a / _)).
    generalize (Z.lxor (a / 2 ^ (128 - n)) (v / 2 ^ (128 - n))). intros x.
    split; intros Hx0; [| now rewrite Hx0, Z.mul_0_r].
    apply Z.mul_eq_0 in Hx0. lia.
Qed.

Lemma Contains_other_family (f g : family) (v n a : Z) :
  f <> g -> Prefix_Contains (prefix_of f v n) (addr_of g a) = false.
Proof.
  intros Hfg. unfold Prefix_Contains.
  destruct (negb (Prefix_IsValid (prefix_of f v n))); [reflexivity|].
  destruct f, g; try congruence; reflexivity.
Qed.

Lemma Contains_AddrZero (p : Prefix) : Prefix_Contains p AddrZero = false.
Proof.
  unfold Prefix_Contains.
  destruct (negb (Prefix_IsValid p)); [reflexivity|].
  cbn [Addr_BitLen]. change (0 =? 0) with true.
  now rewrite orb_true_r.
Qed.

Lemma Contains_invalid (p : Prefix) (ip : Addr) :
  Prefix_IsValid p = false -> Prefix_Contains p ip = false.
Proof. intros H. unfold Prefix_Contains. now rewrite H. Qed.

Lemma Overlaps_invalid_l (p o : Prefix) :
  Prefix_IsValid p = false -> Prefix_Overlaps p o = false.
Proof. intros H. unfold Prefix_Overlaps. now rewrite H. Qed.

Lemma Overlaps_invalid_r (p o : Prefix) :
  Prefix_IsValid o = false -> Prefix_Overlaps p o = false.
Proof.
  intros H. unfold Prefix_Overlaps. rewrite H. now rewrite orb_true_r.
Qed.

Lemma addr_of_inj (f : family) (v u : Z) : addr_of f v = addr_of f u -> v = u.
Proof. destruct f; simpl; congruence. Qed.

Lemma Overlaps_of (f : family) (v n u m : Z) :
  aligned (width f) v n -> aligned (width f) u m ->
  Prefix_Overlaps (prefix_of f v n) (prefix_of f u m)
  = (v / 2 ^ (width f - Z.min n m) =? u / 2 ^ (width f - Z.min n m)).
Proof.
  intros Hv Hu. pose proof Hv as (Hn & Hvr & _). pose proof Hu as (Hm & Hur & _).
  unfold Prefix_Overlaps, Prefix_IsValid. cbn [prefix_of Prefix_Bits Prefix_Addr].
  destruct (Z.leb_spec 0 n); [|lia]. destruct (Z.leb_spec 0 m); [|lia].
  cbn [negb orb].
  destruct (Prefix_eq_dec _ _) as [E|_].
  { injection E as E1 E2. apply addr_of_inj in E1. subst.
    symmetry. apply Z.eqb_refl. }
  replace (Addr_Is4 (addr_of f u)) with (Addr_Is4 (addr_of f v))
    by (destruct f; reflexivity).
  rewrite Bool.eqb_reflx. cbn [negb].
  replace (if n <? m then n else m) with (Z.min n m)
    by (destruct (Z.ltb_spec n m); lia).
  set (k := Z.min n m). assert (Hk : 0 <= k <= width f) by (subst k; lia).
  pose proof (pow2_pos (width f - k) ltac:(lia)) as Hp.
  destruct (Z.eqb_spec k 0) as [E0|E0].
  { rewrite E0, Z.sub_0_r. symmetry. apply Z.eqb_eq.
    rewrite !Z.div_small by lia. reflexivity. }
  rewrite !Addr_Prefix_of by lia. cbn [prefix_of Prefix_Addr].
  rewrite !mask_land_range by lia.
  destruct (Addr_eq_dec _ _) as [E|E]; symmetry.
  - apply addr_of_inj in E. apply Z.eqb_eq. nia.
  - apply Z.eqb_neq. intros Heq. apply E. now rewrite Heq.
Qed.

Lemma Overlaps_other_family (f g : family) (v n u m : Z) :
  f <> g -> Prefix_Overlaps (prefix_of f v n) (prefix_of g u m) = false.
Proof.
  intros Hfg. unfold Prefix_Overlaps.
  destruct (_ || _); [reflexivity|].
  destruct (Prefix_eq_dec _ _) as [E|_].
  { exfalso. destruct f, g; try congruence; discriminate E. }
  destruct f, g; try congruence; reflexivity.
Qed.

Lemma maxPrefixBits_of (f : family) (v n : Z) :
  maxPrefixBits (prefix_of f v n) = width f.
Proof. destruct f; reflexivity. Qed.

(** [splitPrefix] on a valid canonical prefix that is not a single host:
    the left half keeps the address, the right half sets the first free
    bit; neither call panics. *)
Lemma splitPrefix_of (f : family) (v n : Z) :
  aligned (width f) v n -> n < width f ->
  splitPrefix (prefix_of f v n)
  = Ret (prefix_of f v (n + 1),
         prefix_of f (v + 2 ^ (width f - n - 1)) (n + 1)).
Proof.
  intros H Hlt. pose proof H as (Hn & Hv & Hm).
  pose proof (half_range _ _ _ H Hlt) as [_ (_ & Hr & _)].
  pose proof (lor_half _ _ _ H Hlt) as Hlor.
  unfold splitPrefix. cbn [prefix_of Prefix_Bits Prefix_Addr].
  destruct f; cbn [addr_of Addr_Is4 Addr_As4 Addr_As16 width] in *.
  - rewrite Uint32_be_bytes, PutUint32_be_bytes.
    unfold AddrFrom4. rewrite be_value_be_bytes.
    change (8 * Z.of_nat 4) with 32.
    unfold uint32, shl32.
    rewrite (Z.mod_small n), (Z.mod_small (31 - n)), (Z.mod_small 1),
      (Z.mod_small v) by lia.
    destruct (Z.ltb_spec (31 - n) 32); [|lia].
    rewrite Z.shiftl_1_l.
    pose proof (pow2_pos (31 - n) ltac:(lia)).
    assert (2 ^ (31 - n) < 2 ^ 32) by (apply Z.pow_lt_mono_r; lia).
    rewrite (Z.mod_small (2 ^ (31 - n))) by lia.
    replace (31 - n) with (32 - n - 1) by lia.
    rewrite Hlor, Z.mod_small by lia.
    rewrite (PrefixFrom_of V4), (PrefixFrom_of V4 (v + _)) by (simpl; lia).
    reflexivity.
  - rewrite setBit128_be_bytes by lia.
    unfold AddrFrom16. rewrite be_value_be_bytes.
    change (8 * Z.of_nat 16) with 128.
    replace (127 - n) with (128 - n - 1) by lia.
    rewrite Hlor, Z.mod_small by lia.
    rewrite (PrefixFrom_of V6), (PrefixFrom_of V6 (v + _)) by (simpl; lia).
    reflexivity.
Qed.

(** ** Termination of [subtractPrefix] *)

(** Only the masked form of the base matters. *)
Lemma subtractPrefix_fuel_Masked (fuel : nat) (base remove : Prefix) :
  subtractPrefix_fuel fuel (Prefix_Masked base) (Prefix_Masked remove)
  = subtractPrefix_fuel fuel base remove.
Proof.
  destruct fuel as [|k]; [reflexivity|].
  cbn [subtractPrefix_fuel]. now rewrite !Masked_idem.
Qed.

(** A valid canonical base with [width - bits] free bits needs one call more
    than it has free bits: every nested call fixes one more bit. *)
Lemma subtractPrefix_fuel_normal (fuel : nat) (f : family) (v n : Z)
      (remove : Prefix) :
  aligned (width f) v n ->
  (Z.to_nat (width f - n) < fuel)%nat ->
  exists l, subtractPrefix_fuel fuel (prefix_of f v n) remove = Ret l.
Proof.
  revert v n remove.
  induction fuel as [|k IH]; intros v n remove Hal Hfuel; [lia|].
  pose proof Hal as (Hn & Hv & Hm).
  cbn [subtractPrefix_fuel].
  rewrite (Masked_normal (prefix_of f v n)) by now constructor.
  destruct (negb _); [eauto|].
  destruct (_ && _); [eauto|].
  rewrite maxPrefixBits_of. cbn [prefix_of Prefix_Bits].
  destruct (Z.leb_spec (width f) n) as [|Hlt]; [eauto|].
  rewrite splitPrefix_of by assumption.
  destruct (half_range _ _ _ Hal Hlt) as [Hl Hr].
  destruct (Prefix_Overlaps _ _).
  - destruct (IH v (n + 1) (Prefix_Masked remove) Hl ltac:(lia)) as [l El].
    fold (prefix_of f v (n + 1)). rewrite El. eauto.
  - destruct (IH _ (n + 1) (Prefix_Masked remove) Hr ltac:(lia)) as [l El].
    rewrite El. eauto.
Qed.

(** 129 nested calls are enough for every input, canonical or not. *)
Lemma subtractPrefix_fuel_total (base remove : Prefix) :
  subtractPrefix_fuel 129 base remove <> Panic
  /\ subtractPrefix_fuel 129 base remove <> OutOfFuel.
Proof.
  rewrite <- subtractPrefix_fuel_Masked.
  destruct (Masked_cases base) as [E|N].
  - rewrite E. split; discriminate.
  - destruct N as [f v n Hal].
    destruct (subtractPrefix_fuel_normal 129 f v n (Prefix_Masked remove) Hal)
      as [l El].
    + destruct Hal as (Hn & _). destruct f; cbn [width] in *; lia.
    + rewrite El. split; discriminate.
Qed.

(** More fuel does not change a result. *)
Lemma subtractPrefix_fuel_mono (k k' : nat) (base remove : Prefix)
      (l : list Prefix) :
  (k <= k')%nat ->
  subtractPrefix_fuel k base remove = Ret l ->
  subtractPrefix_fuel k' base remove = Ret l.
Proof.
  revert k' base remove l.
  induction k as [|k IH]; intros k' base remove l Hle H; [discriminate|].
  destruct k' as [|k']; [lia|].
  cbn [subtractPrefix_fuel] in *.
  destruct (negb _); [exact H|].
  destruct (_ && _); [exact H|].
  destruct (_ <=? _); [exact H|].
  destruct (splitPrefix _) as [[l0 r0]| |]; try discriminate.
  destruct (Prefix_Overlaps _ _).
  - destruct (subtractPrefix_fuel k l0 _) as [x| |] eqn:E; try discriminate.
    now rewrite (IH k' _ _ x ltac:(lia) E).
  - destruct (subtractPrefix_fuel k r0 _) as [x| |] eqn:E; try discriminate.
    now rewrite (IH k' _ _ x ltac:(lia) E).
Qed.

Lemma subtractPrefix_spec (base remove : Prefix) :
  subtractPrefix_fuel 129 base remove = Ret (subtractPrefix base remove).
Proof.
  unfold subtractPrefix.
  destruct (subtractPrefix_fuel_total base remove) as [H1 H2].
  destruct (subtractPrefix_fuel 129 base remove);
    [reflexivity | now destruct H1 | now destruct H2].
Qed.

Lemma subtractPrefix_of_fuel (k : nat) (base remove : Prefix) (l : list Prefix) :
  subtractPrefix_fuel k base remove = Ret l -> subtractPrefix base remove = l.
Proof.
  intros H. pose proof (subtractPrefix_spec base remove) as S.
  destruct (Nat.le_ge_cases k 129) as [Hle|Hle].
  - rewrite (subtractPrefix_fuel_mono _ _ _ _ _ Hle H) in S. congruence.
  - rewrite (subtractPrefix_fuel_mono _ _ _ _ _ Hle S) in H. congruence.
Qed.

Lemma subtractPrefix_fuel_subtracts (fuel : nat) (f : family) (u m v n : Z)
      (l : list Prefix) :
  aligned (width f) u m -> aligned (width f) v n ->
  subtractPrefix_fuel fuel (prefix_of f v n) (prefix_of f u m) = Ret l ->
  subtracts f u m v n l.
Proof.
  intros Hu. revert v n l.
  induction fuel as [|k IH]; intros v n l Hv H; [discriminate|].
  pose proof Hu as (Hm & Hur & _). pose proof Hv as (Hn & Hvr & _).
  cbn [subtractPrefix_fuel] in H.
  rewrite (Masked_normal (prefix_of f v n)) in H by now constructor.
  rewrite (Masked_normal (prefix_of f u m)) in H by now constructor.
  rewrite Overlaps_of in H by assumption.
  cbn [prefix_of Prefix_Addr Prefix_Bits] in H.
  fold (prefix_of f u m) in H. fold (prefix_of f v n) in H.
  rewrite Contains_of, maxPrefixBits_of in H by assumption.
  destruct (Z.eqb_spec (v / 2 ^ (width f - Z.min n m))
                       (u / 2 ^ (width f - Z.min n m))) as [Eo|Eo];
    cbn [negb] in H.
  2:{ injection H as <-. now apply sub_disjoint. }
  destruct (Z.leb_spec m n) as [Hmn|Hmn].
  { rewrite Z.min_r in Eo by lia.
    rewrite (proj2 (Z.eqb_eq _ _) Eo) in H. cbn [andb] in H.
    injection H as <-. now apply sub_covered. }
  rewrite andb_false_r in H.
  rewrite Z.min_l in Eo by lia.
  destruct (Z.leb_spec (width f) n) as [|Hlt]; [lia|].
  rewrite splitPrefix_of in H by assumption.
  destruct (half_range _ _ _ Hv Hlt) as [Hl Hr].
  rewrite Overlaps_of in H by assumption.
  rewrite Z.min_r in H by lia.
  destruct (Z.eqb_spec (u / 2 ^ (width f - (n + 1)))
                       (v / 2 ^ (width f - (n + 1)))) as [El|El].
  - destruct (subtractPrefix_fuel k _ _) as [x| |] eqn:E; try discriminate.
    injection H as <-. apply sub_left; auto.
  - destruct (subtractPrefix_fuel k _ _) as [x| |] eqn:E; try discriminate.
    injection H as <-. apply sub_right; auto.
Qed.

Lemma subtractPrefix_subtracts (f : family) (u m v n : Z) :
  aligned (width f) u m -> aligned (width f) v n ->
  subtracts f u m v n (subtractPrefix (prefix_of f v n) (prefix_of f u m)).
Proof.
  intros Hu Hv. eapply subtractPrefix_fuel_subtracts; eauto.
  apply subtractPrefix_spec.
Qed.

(** ** Arithmetic of aligned blocks *)

Lemma div_coarsen (x y s t : Z) :
  0 <= s <= t -> x / 2 ^ s = y / 2 ^ s -> x / 2 ^ t = y / 2 ^ t.
Proof.
  intros H E.
  replace t with (s + (t - s)) by lia.
  rewrite Z.pow_add_r by lia.
  rewrite <- !Z.div_div by (try apply Z.pow_nonneg; try apply pow2_pos; lia).
  now rewrite E.
Qed.

Lemma half_quotients (w v n : Z) :
  aligned w v n -> n < w ->
  v / 2 ^ (w - (n + 1)) = 2 * (v / 2 ^ (w - n))
  /\ (v + 2 ^ (w - n - 1)) / 2 ^ (w - (n + 1)) = 2 * (v / 2 ^ (w - n)) + 1.
Proof.
  intros H Hlt. pose proof H as (Hn & Hv & Hm).
  pose proof (aligned_mul _ _ _ H) as Hmul.
  pose proof (pow2_pos (w - n - 1) ltac:(lia)) as Hp.
  assert (E : 2 ^ (w - n) = 2 * 2 ^ (w - n - 1)).
  { rewrite <- Z.pow_succ_r by lia. f_equal. lia. }
  replace (w - (n + 1)) with (w - n - 1) by lia.
  set (q := v / 2 ^ (w - n)) in *.
  split.
  - rewrite Hmul, E.
    replace (2 * 2 ^ (w - n - 1) * q) with ((2 * q) * 2 ^ (w - n - 1)) by ring.
    apply Z.div_mul. lia.
  - rewrite Hmul, E.
    replace (2 * 2 ^ (w - n - 1) * q + 2 ^ (w - n - 1))
      with ((2 * q + 1) * 2 ^ (w - n - 1)) by ring.
    apply Z.div_mul. lia.
Qed.

(** A block is the disjoint union of its two halves. *)
Lemma half_split (w v n x : Z) :
  aligned w v n -> n < w ->
  (x / 2 ^ (w - n) = v / 2 ^ (w - n)
   <-> x / 2 ^ (w - (n + 1)) = v / 2 ^ (w - (n + 1))
       \/ x / 2 ^ (w - (n + 1)) = (v + 2 ^ (w - n - 1)) / 2 ^ (w - (n + 1))).
Proof.
  intros H Hlt. pose proof H as (Hn & Hv & Hm).
  destruct (half_quotients _ _ _ H Hlt) as [-> ->].
  assert (E : x / 2 ^ (w - n) = x / 2 ^ (w - (n + 1)) / 2).
  { rewrite Z.div_div by (try apply pow2_pos; lia).
    rewrite Z.mul_comm, <- Z.pow_succ_r by lia. do 2 f_equal. lia. }
  rewrite E. generalize (x / 2 ^ (w - (n + 1))) (v / 2 ^ (w - n)).
  intros y q. split; intros Hy.
  - pose proof (Z.div_mod y 2 ltac:(lia)).
    pose proof (Z.mod_pos_bound y 2 ltac:(lia)). lia.
  - destruct Hy as [-> | ->].
    + rewrite Z.mul_comm. apply Z.div_mul. lia.
    + pose proof (Z.div_mod (2 * q + 1) 2 ltac:(lia)).
      pose proof (Z.mod_pos_bound (2 * q + 1) 2 ltac:(lia)). lia.
Qed.

(** Addresses of a lower block are below those of a higher block. *)
Lemma block_lt (a b s q : Z) :
  0 <= s -> a / 2 ^ s = q -> b / 2 ^ s = q + 1 -> a < b.
Proof.
  intros Hs Ha Hb. pose proof (pow2_pos s Hs) as Hp.
  destruct (Z.lt_ge_cases a b) as [|Hge]; [assumption|].
  pose proof (Z.div_le_mono b a (2 ^ s) Hp Hge). lia.
Qed.

(** ** What the recursion returns *)

Lemma normal_in_normal (f : family) (p : Prefix) : normal_in f p -> normal p.
Proof. intros (v & n & -> & H). now constructor. Qed.

Lemma normal_normal_in (p : Prefix) : normal p -> exists f, normal_in f p.
Proof. intros [f v n H]. exists f, v, n. auto. Qed.

Lemma subtracts_shape (f : family) (u m v n : Z) (l : list Prefix) :
  aligned (width f) u m ->
  subtracts f u m v n l -> aligned (width f) v n -> Forall (normal_in f) l.
Proof.
  intros (Hm & _).
  induction 1 as [v n Hd | v n Hmn Hc | v n l Hnm Ho Hl Hs IH
                 | v n l Hnm Ho Hl Hs IH]; intros Hv.
  - repeat constructor. exists v, n. auto.
  - constructor.
  - assert (Hlt : n < width f) by lia.
    destruct (half_range _ _ _ Hv Hlt) as [Ha Hb].
    apply Forall_app. split; [auto|].
    repeat constructor. eexists _, _. eauto.
  - assert (Hlt : n < width f) by lia.
    destruct (half_range _ _ _ Hv Hlt) as [Ha Hb].
    apply Forall_app. split; [|auto].
    repeat constructor. eexists _, _. eauto.
Qed.

(** Coverage, on the relation: the fragments hold the addresses of the base
    block that are outside the exclusion block. *)
Lemma subtracts_cover (f : family) (u m v n : Z) (l : list Prefix) :
  aligned (width f) u m ->
  subtracts f u m v n l -> aligned (width f) v n ->
  forall a, 0 <= a < 2 ^ width f ->
    (Exists (fun p => covers p (addr_of f a)) l
     <-> a / 2 ^ (width f - n) = v / 2 ^ (width f - n)
         /\ a / 2 ^ (width f - m) <> u / 2 ^ (width f - m)).
Proof.
  intros Hu Hs.
  induction Hs as [v n Hd | v n Hmn Hc | v n l Hnm Ho Hl Hs IH
                  | v n l Hnm Ho Hl Hs IH]; intros Hv a Ha;
    pose proof Hu as (Hm & Hur & _); pose proof Hv as (Hn & Hvr & _).
  - rewrite Exists_cons, Exists_nil. unfold covers.
    rewrite Contains_of, Z.eqb_eq by assumption.
    split; [intros [E|[]] | intros [E _]; now left].
    split; [exact E|]. intros E'. apply Hd.
    rewrite <- (div_coarsen a v (width f - n) (width f - Z.min n m)) by (lia || exact E).
    apply div_coarsen with (s := width f - m); [lia | exact E'].
  - rewrite Exists_nil. split; [intros []|]. intros [E E']. apply E'.
    rewrite <- Hc. apply div_coarsen with (s := width f - n); [lia | exact E].
  - assert (Hlt : n < width f) by lia.
    destruct (half_range _ _ _ Hv Hlt) as [Hal Har].
    pose proof Har as (_ & Hrr & _).
    destruct (half_quotients _ _ _ Hv Hlt) as [Eq1 Eq2].
    rewrite Exists_app, (IH Hal a Ha), Exists_cons, Exists_nil. unfold covers.
    rewrite Contains_of, Z.eqb_eq by (assumption || lia).
    rewrite (half_split _ _ _ a Hv Hlt).
    split.
    + intros [[E E']|[E|[]]]; [tauto|]. split; [now right|].
      intros E'. apply (div_coarsen _ _ (width f - m) (width f - (n + 1))) in E';
        [|lia]. lia.
    + intros [[E|E] E']; [left; tauto | right; now left].
  - assert (Hlt : n < width f) by lia.
    destruct (half_range _ _ _ Hv Hlt) as [Hal Har].
    pose proof Har as (_ & Hrr & _).
    destruct (half_quotients _ _ _ Hv Hlt) as [Eq1 Eq2].
    rewrite Exists_app, (IH Har a Ha), Exists_cons, Exists_nil. unfold covers.
    rewrite Contains_of, Z.eqb_eq by (assumption || lia).
    rewrite (half_split _ _ _ a Hv Hlt).
    split.
    + intros [[E|[]]|[E E']]; [|tauto]. split; [now left|].
      intros E'. apply (div_coarsen _ _ (width f - m) (width f - (n + 1))) in E';
        [|lia]. apply Hl. congruence.
    + intros [[E|E] E']; [left; now left | right; tauto].
Qed.

Lemma StronglySorted_app {A : Type} (R : A -> A -> Prop) (l1 l2 : list A) :
  StronglySorted R l1 -> StronglySorted R l2 ->
  (forall x y, In x l1 -> In y l2 -> R x y) ->
  StronglySorted R (l1 ++ l2).
Proof.
  intros H1 H2 H. induction H1 as [|x l1 Hs IH Hx]; [exact H2|].
  cbn [app]. constructor.
  - apply IH. intros a b Ha Hb. apply H; [now right | exact Hb].
  - apply Forall_app. split; [exact Hx|].
    apply Forall_forall. intros y Hy. apply H; [now left | exact Hy].
Qed.

Lemma StronglySorted_nth {A : Type} (R : A -> A -> Prop) (l : list A) :
  StronglySorted R l ->
  forall i j x y, (i < j)%nat ->
    nth_error l i = Some x -> nth_error l j = Some y -> R x y.
Proof.
  induction 1 as [|a l Hs IH Ha]; intros i j x y Hij Hi Hj.
  - destruct i; discriminate.
  - destruct j as [|j]; [lia|]. cbn [nth_error] in Hj.
    destruct i as [|i]; cbn [nth_error] in Hi.
    + injection Hi as <-. rewrite Forall_forall in Ha.
      apply Ha. eapply nth_error_In; eauto.
    + apply (IH i j x y); [lia | assumption | assumption].
Qed.

(** Address order, on the relation. *)
Lemma subtracts_sorted (f : family) (u m v n : Z) (l : list Prefix) :
  aligned (width f) u m ->
  subtracts f u m v n l -> aligned (width f) v n ->
  StronglySorted (below f) l.
Proof.
  intros Hu Hs.
  induction Hs as [v n Hd | v n Hmn Hc | v n l Hnm Ho Hl Hs IH
                  | v n l Hnm Ho Hl Hs IH]; intros Hv;
    pose proof Hu as (Hm & Hur & _); pose proof Hv as (Hn & Hvr & _).
  - repeat constructor.
  - constructor.
  - assert (Hlt : n < width f) by lia.
    destruct (half_range _ _ _ Hv Hlt) as [Hal Har].
    pose proof Har as (_ & Hrr & _).
    destruct (half_quotients _ _ _ Hv Hlt) as [Eq1 Eq2].
    apply StronglySorted_app; [auto | repeat constructor |].
    intros p q Hp [<-|[]] a b Ha Hb Hpa Hqb.
    assert (Ea : a / 2 ^ (width f - (n + 1)) = v / 2 ^ (width f - (n + 1))).
    { apply (subtracts_cover f u m v (n + 1) l Hu Hs Hal a Ha).
      apply Exists_exists. eauto. }
    unfold covers in Hqb. rewrite Contains_of, Z.eqb_eq in Hqb by (assumption || lia).
    apply (block_lt a b (width f - (n + 1)) _ ltac:(lia) Ea). lia.
  - assert (Hlt : n < width f) by lia.
    destruct (half_range _ _ _ Hv Hlt) as [Hal Har].
    pose proof Har as (_ & Hrr & _).
    destruct (half_quotients _ _ _ Hv Hlt) as [Eq1 Eq2].
    apply StronglySorted_app; [repeat constructor | auto |].
    intros p q [<-|[]] Hq a b Ha Hb Hpa Hqb.
    assert (Eb : b / 2 ^ (width f - (n + 1))
                 = (v + 2 ^ (width f - n - 1)) / 2 ^ (width f - (n + 1))).
    { apply (subtracts_cover f u m _ (n + 1) l Hu Hs Har b Hb).
      apply Exists_exists. eauto. }
    unfold covers in Hpa. rewrite Contains_of, Z.eqb_eq in Hpa by (assumption || lia).
    apply (block_lt a b (width f - (n + 1)) _ ltac:(lia) Hpa). lia.
Qed.

(** ** From canonical prefixes to aligned blocks *)

Lemma canonical_normal_in (p : Prefix) :
  canonical p -> exists f, normal_in f p.
Proof.
  intros [Hv Hm]. apply normal_normal_in. now apply canonical_normal.
Qed.

Lemma normal_in_canonical (f : family) (p : Prefix) :
  normal_in f p -> canonical p.
Proof.
  intros H. apply normal_in_normal in H. split.
  - now apply normal_valid.
  - now apply Masked_normal.
Qed.

Lemma normal_in_Is4 (f : family) (p : Prefix) :
  normal_in f p ->
  Addr_Is4 (Prefix_Addr p) = match f with V4 => true | V6 => false end.
Proof. intros (v & n & -> & _). destruct f; reflexivity. Qed.

Lemma same_family_eq (f g : family) (p q : Prefix) :
  normal_in f p -> normal_in g q -> same_family p q -> f = g.
Proof.
  intros Hp Hq H. unfold same_family in H.
  rewrite (normal_in_Is4 _ _ Hp), (normal_in_Is4 _ _ Hq) in H.
  destruct f, g; congruence.
Qed.

(** A well-formed address that a prefix of family [f] covers is an address
    of family [f]. *)
Lemma covers_family (f : family) (p : Prefix) (a : Addr) :
  normal_in f p -> addr_wf a -> covers p a ->
  exists x, a = addr_of f x /\ 0 <= x < 2 ^ width f.
Proof.
  intros (v & n & -> & Hal) Hwf Hc. unfold covers in Hc.
  destruct a as [|x|x].
  - now rewrite Contains_AddrZero in Hc.
  - destruct f.
    + exists x. auto.
    + change (Addr4 x) with (addr_of V4 x) in Hc.
      rewrite Contains_other_family in Hc by discriminate.
      discriminate.
  - destruct f.
    + change (Addr6 x) with (addr_of V6 x) in Hc.
      rewrite Contains_other_family in Hc by discriminate.
      discriminate.
    + exists x. auto.
Qed.

(** Coverage for valid canonical arguments of one family. *)
Lemma subtractPrefix_cover_in (f : family) (A B : Prefix) (a : Addr) :
  normal_in f A -> normal_in f B -> addr_wf a ->
  (Exists (fun p => covers p a) (subtractPrefix A B)
   <-> covers A a /\ ~ covers B a).
Proof.
  intros (v & n & -> & Hv) (u & m & -> & Hu) Hwf.
  pose proof (subtractPrefix_subtracts f u m v n Hu Hv) as Hs.
  pose proof (subtracts_shape _ _ _ _ _ _ Hu Hs Hv) as Hsh.
  pose proof Hu as (Hm & Hur & _). pose proof Hv as (Hn & Hvr & _).
  assert (Hin : (exists x, a = addr_of f x /\ 0 <= x < 2 ^ width f)
                \/ forall p, normal_in f p -> ~ covers p a).
  { destruct a as [|x|x]; destruct f;
      try (left; exists x; split; [reflexivity | exact Hwf]);
      right; intros p Hp Hc;
      destruct (covers_family _ _ _ Hp Hwf Hc) as (y & E & _); discriminate. }
  destruct Hin as [(x & -> & Hx) | Hout].
  - rewrite (subtracts_cover f u m v n _ Hu Hs Hv x Hx). unfold covers.
    rewrite !Contains_of by assumption.
    rewrite Z.eqb_eq, <- Z.eqb_neq, not_true_iff_false. reflexivity.
  - split.
    + intros HE. apply Exists_exists in HE. destruct HE as (p & Hp & Hc).
      rewrite Forall_forall in Hsh. exfalso. exact (Hout p (Hsh p Hp) Hc).
    + intros [Hc _]. exfalso. apply (Hout (prefix_of f v n)); [|exact Hc].
      exists v, n. auto.
Qed.

(** Address order for valid canonical arguments of one family. *)
Lemma subtractPrefix_sorted_in (f : family) (A B : Prefix) :
  normal_in f A -> normal_in f B ->
  StronglySorted (below f) (subtractPrefix A B)
  /\ Forall (normal_in f) (subtractPrefix A B).
Proof.
  intros (v & n & -> & Hv) (u & m & -> & Hu).
  pose proof (subtractPrefix_subtracts f u m v n Hu Hv) as Hs. split.
  - exact (subtracts_sorted _ _ _ _ _ _ Hu Hs Hv).
  - exact (subtracts_shape _ _ _ _ _ _ Hu Hs Hv).
Qed.

(** Two overlapping prefixes have an address in common: the address of the
    longer one. *)
Lemma Overlaps_common (f : family) (p q : Prefix) :
  normal_in f p -> normal_in f q -> Prefix_Overlaps p q = true ->
  exists x, 0 <= x < 2 ^ width f
            /\ covers p (addr_of f x) /\ covers q (addr_of f x).
Proof.
  intros (v & n & -> & Hv) (u & m & -> & Hu) Ho.
  pose proof Hu as (Hm & Hur & _). pose proof Hv as (Hn & Hvr & _).
  rewrite Overlaps_of, Z.eqb_eq in Ho by assumption. unfold covers.
  destruct (Z.le_ge_cases n m) as [Hle|Hle].
  - rewrite Z.min_l in Ho by lia. exists u.
    rewrite !Contains_of, !Z.eqb_eq by assumption. auto.
  - rewrite Z.min_r in Ho by lia. exists v.
    rewrite !Contains_of, !Z.eqb_eq by assumption. auto.
Qed.

Lemma below_disjoint (f : family) (p q : Prefix) (a : Addr) :
  normal_in f p -> below f p q -> addr_wf a -> ~ (covers p a /\ covers q a).
Proof.
  intros Hp Hb Hwf [Hpa Hqa].
  destruct (covers_family _ _ _ Hp Hwf Hpa) as (x & -> & Hx).
  pose proof (Hb x x Hx Hx Hpa Hqa). lia.
Qed.

Lemma below_not_Overlaps (f : family) (p q : Prefix) :
  normal_in f p -> normal_in f q -> below f p q ->
  Prefix_Overlaps p q = false /\ Prefix_Overlaps q p = false.
Proof.
  intros Hp Hq Hb. split; apply not_true_iff_false; intros Ho.
  - destruct (Overlaps_common _ _ _ Hp Hq Ho) as (x & Hx & H1 & H2).
    pose proof (Hb x x Hx Hx H1 H2). lia.
  - destruct (Overlaps_common _ _ _ Hq Hp Ho) as (x & Hx & H1 & H2).
    pose proof (Hb x x Hx Hx H2 H1). lia.
Qed.

(** [Addr_Less] on two addresses of one family compares their values. *)
Lemma Addr_Less_of (f : family) (a b : Z) :
  a < b -> Addr_Less (addr_of f a) (addr_of f b) = true.
Proof.
  intros H. unfold Addr_Less.
  replace (Addr_BitLen (addr_of f b)) with (Addr_BitLen (addr_of f a))
    by (destruct f; reflexivity).
  rewrite Z.ltb_irrefl, Z.eqb_refl. cbn [orb andb].
  replace (Addr_value (addr_of f a)) with a by (destruct f; reflexivity).
  replace (Addr_value (addr_of f b)) with b by (destruct f; reflexivity).
  now apply Z.ltb_lt.
Qed.

(** ** The recursive step *)

(** What the tests before the split leave: the exclusion is strictly longer
    than the base and lies inside it. *)
Lemma split_conditions (f : family) (v n u m : Z) :
  aligned (width f) v n -> aligned (width f) u m ->
  Prefix_Overlaps (prefix_of f v n) (prefix_of f u m) = true ->
  Prefix_Contains (prefix_of f u m) (addr_of f v) && (m <=? n) = false ->
  n < m /\ u / 2 ^ (width f - n) = v / 2 ^ (width f - n).
Proof.
  intros Hv Hu Ho Hc.
  pose proof Hu as (Hm & Hur & _). pose proof Hv as (Hn & Hvr & _).
  rewrite Overlaps_of, Z.eqb_eq in Ho by assumption.
  rewrite Contains_of in Hc by assumption.
  destruct (Z.leb_spec m n) as [Hle|Hlt].
  - rewrite Z.min_r in Ho by lia.
    rewrite (proj2 (Z.eqb_eq _ _) Ho) in Hc. discriminate.
  - rewrite Z.min_l in Ho by lia. auto.
Qed.

(** ** Depth of the recursion *)

Lemma one_more_bit_cons (b c : Prefix) (calls : list Prefix) :
  Prefix_Bits c = Prefix_Bits b + 1 ->
  nth_error calls 0 = Some c ->
  one_more_bit calls -> one_more_bit (b :: calls).
Proof.
  intros Hb Hc H [|k] x y Hx Hy.
  - change (nth_error calls 0 = Some y) in Hy. cbn [nth_error] in Hx.
    assert (x = b) by congruence. assert (y = c) by congruence.
    subst. exact Hb.
  - now apply (H k).
Qed.

Lemma subtractPrefix_calls_normal (fuel : nat) (f : family) (v n : Z)
      (remove : Prefix) :
  aligned (width f) v n ->
  (Z.to_nat (width f - n) < fuel)%nat ->
  exists l calls,
    subtractPrefix_fuel fuel (prefix_of f v n) remove = Ret l
    /\ subtractPrefix_calls fuel (prefix_of f v n) remove = Ret calls
    /\ nth_error calls 0 = Some (prefix_of f v n)
    /\ (List.length calls <= S (Z.to_nat (width f - n)))%nat
    /\ one_more_bit calls.
Proof.
  revert v n remove.
  induction fuel as [|k IH]; intros v n remove Hal Hfuel; [lia|].
  pose proof Hal as (Hn & Hv & Hm).
  assert (Hone : one_more_bit [prefix_of f v n]).
  { intros [|[|i]] c c' H1 H2; discriminate. }
  cbn [subtractPrefix_fuel subtractPrefix_calls].
  rewrite (Masked_normal (prefix_of f v n)) by now constructor.
  destruct (negb _).
  { eexists _, _. repeat split; try reflexivity; [cbn; lia | exact Hone]. }
  destruct (_ && _).
  { eexists _, _. repeat split; try reflexivity; [cbn; lia | exact Hone]. }
  rewrite maxPrefixBits_of. cbn [prefix_of Prefix_Bits].
  destruct (Z.leb_spec (width f) n) as [|Hlt].
  { eexists _, _. repeat split; try reflexivity; [cbn; lia | exact Hone]. }
  rewrite splitPrefix_of by assumption.
  destruct (half_range _ _ _ Hal Hlt) as [Hl Hr].
  destruct (Prefix_Overlaps _ _).
  - destruct (IH v (n + 1) (Prefix_Masked remove) Hl ltac:(lia))
      as (l & calls & El & Ec & H0 & Hlen & Hch).
    fold (prefix_of f v (n + 1)). rewrite El, Ec.
    eexists _, _. repeat split; try reflexivity.
    + cbn [List.length]. lia.
    + eapply one_more_bit_cons; eauto. reflexivity.
  - destruct (IH _ (n + 1) (Prefix_Masked remove) Hr ltac:(lia))
      as (l & calls & El & Ec & H0 & Hlen & Hch).
    rewrite El, Ec.
    eexists _, _. repeat split; try reflexivity.
    + cbn [List.length]. lia.
    + eapply one_more_bit_cons; eauto. reflexivity.
Qed.

(** ** [subtractPrefix] on arbitrary arguments *)

Lemma subtractPrefix_Masked (base remove : Prefix) :
  subtractPrefix (Prefix_Masked base) (Prefix_Masked remove)
  = subtractPrefix base remove.
Proof.
  apply (subtractPrefix_of_fuel 129).
  rewrite subtractPrefix_fuel_Masked. apply subtractPrefix_spec.
Qed.

Lemma subtractPrefix_no_overlap (base remove : Prefix) :
  Prefix_Overlaps (Prefix_Masked base) (Prefix_Masked remove) = false ->
  subtractPrefix base remove = [Prefix_Masked base].
Proof.
  intros H. apply (subtractPrefix_of_fuel 1).
  cbn [subtractPrefix_fuel]. now rewrite H.
Qed.

Lemma good_Masked (p : Prefix) : good (Prefix_Masked p).
Proof. apply Masked_cases. Qed.

Lemma good_masked (p : Prefix) : good p -> masked p.
Proof.
  intros [->|N]; [reflexivity | now apply Masked_normal].
Qed.

Lemma good_low_bits_zero (p : Prefix) : good p -> low_bits_zero p.
Proof.
  intros [->|[f v n (Hn & Hv & Hm)]] i Hi.
  - apply Z.testbit_0_l.
  - replace (Addr_BitLen (Prefix_Addr (prefix_of f v n))) with (width f) in Hi
      by (destruct f; reflexivity).
    replace (Addr_value (Prefix_Addr (prefix_of f v n))) with v
      by (destruct f; reflexivity).
    cbn [prefix_of Prefix_Bits] in Hi.
    rewrite <- (Z.mod_pow2_bits_low v (width f - n) i) by lia.
    rewrite Hm. apply Z.testbit_0_l.
Qed.

Lemma normal_family_cases (f : family) (p : Prefix) :
  normal_in f p -> forall q, good q ->
  q = zeroPrefix \/ normal_in f q \/ (exists g, g <> f /\ normal_in g q).
Proof.
  intros _ q [->|N]; [now left|]. right.
  destruct (normal_normal_in q N) as [g Hg].
  destruct f, g; (now left) || (right; eexists; split; [|exact Hg]; discriminate).
Qed.

(** The exclusions that cannot touch a prefix of family [f]: invalid ones
    and those of the other family. *)
Lemma Overlaps_foreign (f : family) (p q : Prefix) :
  normal_in f p ->
  q = zeroPrefix \/ (exists g, g <> f /\ normal_in g q) ->
  Prefix_Overlaps p q = false /\ forall a, ~ (covers p a /\ covers q a).
Proof.
  intros (v & n & -> & Hv) [->|(g & Hg & u & m & -> & Hu)].
  - split; [now apply Overlaps_invalid_r|].
    intros a [_ H]. unfold covers in H.
    now rewrite Contains_invalid in H.
  - split; [apply Overlaps_other_family; congruence|].
    intros a [H1 H2]. unfold covers in *.
    destruct a as [|x|x].
    + now rewrite Contains_AddrZero in H1.
    + destruct f, g; try congruence.
      * change (Addr4 x) with (addr_of V4 x) in H2.
        rewrite Contains_other_family in H2 by discriminate. discriminate.
      * change (Addr4 x) with (addr_of V4 x) in H1.
        rewrite Contains_other_family in H1 by discriminate. discriminate.
    + destruct f, g; try congruence.
      * change (Addr6 x) with (addr_of V6 x) in H1.
        rewrite Contains_other_family in H1 by discriminate. discriminate.
      * change (Addr6 x) with (addr_of V6 x) in H2.
        rewrite Contains_other_family in H2 by discriminate. discriminate.
Qed.

(** On a valid canonical base of family [f], whatever the exclusion: the
    fragments are valid canonical prefixes of family [f], in address order,
    and cover the base minus the masked exclusion. *)
Lemma subtractPrefix_normal_base (f : family) (base remove : Prefix) :
  normal_in f base ->
  Forall (normal_in f) (subtractPrefix base remove)
  /\ StronglySorted (below f) (subtractPrefix base remove)
  /\ forall a, addr_wf a ->
       (Exists (fun p => covers p a) (subtractPrefix base remove)
        <-> covers base a /\ ~ covers (Prefix_Masked remove) a).
Proof.
  intros Hb. pose proof (normal_in_normal _ _ Hb) as Nb.
  assert (Hforeign :
            Prefix_Masked remove = zeroPrefix
            \/ (exists g, g <> f /\ normal_in g (Prefix_Masked remove)) ->
            Forall (normal_in f) (subtractPrefix base remove)
            /\ StronglySorted (below f) (subtractPrefix base remove)
            /\ forall a, addr_wf a ->
                 (Exists (fun p => covers p a) (subtractPrefix base remove)
                  <-> covers base a /\ ~ covers (Prefix_Masked remove) a)).
  { intros Hfor.
    destruct (Overlaps_foreign f base _ Hb Hfor) as [Ho Hd].
    rewrite subtractPrefix_no_overlap
      by (rewrite (Masked_normal base Nb); exact Ho).
    rewrite (Masked_normal base Nb).
    split; [repeat constructor; exact Hb|]. split; [repeat constructor|].
    intros a _. rewrite Exists_cons, Exists_nil.
    specialize (Hd a). tauto. }
  destruct (normal_family_cases f base Hb _ (good_Masked remove))
    as [Hz|[Hr|Hg]]; [now apply Hforeign; left | | now apply Hforeign; right].
  rewrite <- subtractPrefix_Masked, (Masked_normal base Nb).
  destruct (subtractPrefix_sorted_in f base _ Hb Hr) as [Hs Hn].
  split; [exact Hn|]. split; [exact Hs|].
  intros a Hwf. now apply (subtractPrefix_cover_in f).
Qed.

Lemma subtractPrefix_zero_base (remove : Prefix) :
  subtractPrefix zeroPrefix remove = [zeroPrefix].
Proof. now apply (subtractPrefix_of_fuel 1). Qed.

Lemma subtractPrefix_good (base remove : Prefix) :
  Forall good (subtractPrefix base remove).
Proof.
  rewrite <- subtractPrefix_Masked.
  destruct (good_Masked base) as [->|N].
  - rewrite subtractPrefix_zero_base. constructor; [now left | constructor].
  - destruct (normal_normal_in _ N) as [f Hf].
    destruct (subtractPrefix_normal_base f _ (Prefix_Masked remove) Hf) as [H _].
    eapply Forall_impl; [|exact H].
    intros p Hp. right. eapply normal_in_normal; eauto.
Qed.

(** ** The list driver as maps over lists *)

Lemma fold_left_app_flat_map {A B : Type} (g : A -> list B) (l : list A)
      (init : list B) :
  fold_left (fun acc x => acc ++ g x) l init = init ++ flat_map g l.
Proof.
  revert init. induction l as [|x l IH]; intros init; cbn [fold_left flat_map].
  - now rewrite app_nil_r.
  - now rewrite IH, app_assoc.
Qed.

Lemma flat_map_singleton {A : Type} (g : A -> list A) (l : list A) :
  (forall x, In x l -> g x = [x]) -> flat_map g l = l.
Proof.
  induction l as [|x l IH]; intros H; [reflexivity|].
  cbn [flat_map]. rewrite (H x (or_introl eq_refl)), IH; [reflexivity|].
  intros y Hy. apply H. now right.
Qed.

Lemma flat_map_single {A B : Type} (g : A -> list B) (x : A) :
  flat_map g [x] = g x.
Proof. cbn [flat_map]. apply app_nil_r. Qed.

Lemma fold_left_nil {A B : Type} (f : A -> B -> A) (a : A) :
  fold_left f [] a = a.
Proof. reflexivity. Qed.

Lemma fold_left_cons {A B : Type} (f : A -> B -> A) (x : B) (l : list B) (a : A) :
  fold_left f (x :: l) a = fold_left f l (f a x).
Proof. reflexivity. Qed.

Lemma flat_map_map {A B C : Type} (g : B -> list C) (h : A -> B) (l : list A) :
  flat_map g (map h l) = flat_map (fun x => g (h x)) l.
Proof.
  induction l as [|x l IH]; [reflexivity|].
  cbn [map flat_map]. now rewrite IH.
Qed.

Lemma flat_map_flat_map {A B C : Type} (g : B -> list C) (h : A -> list B)
      (l : list A) :
  flat_map g (flat_map h l) = flat_map (fun x => flat_map g (h x)) l.
Proof.
  induction l as [|x l IH]; [reflexivity|].
  cbn [flat_map]. now rewrite flat_map_app, IH.
Qed.

Lemma subtractFragments_flat_map (fragments : list Prefix) (r : Prefix) :
  subtractFragments fragments r
  = flat_map (fun f => subtractPrefix f (Prefix_Masked r)) fragments.
Proof. unfold subtractFragments. now rewrite fold_left_app_flat_map. Qed.

Lemma subtractPrefixList_flat_map (base remove : list Prefix) :
  subtractPrefixList base remove = flat_map (fun b => baseFragments b remove) base.
Proof. unfold subtractPrefixList. now rewrite fold_left_app_flat_map. Qed.

Lemma subtractPrefixList_single (b : Prefix) (remove : list Prefix) :
  subtractPrefixList [b] remove = baseFragments b remove.
Proof.
  rewrite subtractPrefixList_flat_map.
  apply (flat_map_single (fun b => baseFragments b remove)).
Qed.

Lemma subtractFragments_Masked (fragments : list Prefix) (r : Prefix) :
  subtractFragments fragments (Prefix_Masked r) = subtractFragments fragments r.
Proof. unfold subtractFragments. now rewrite Masked_idem. Qed.

(** ** Fragments stay in the family of their base *)

Lemma normal_not_zero (p : Prefix) : normal p -> p <> zeroPrefix.
Proof. intros [f v n _] E. destruct f; discriminate E. Qed.

Lemma Masked_Is4 (p : Prefix) :
  normal (Prefix_Masked p) ->
  Addr_Is4 (Prefix_Addr (Prefix_Masked p)) = Addr_Is4 (Prefix_Addr p).
Proof.
  intros N. apply normal_not_zero in N. revert N.
  destruct p as [ip n]. unfold Prefix_Masked, Addr_Prefix, PrefixFrom.
  cbn [Prefix_Addr Prefix_Bits].
  destruct (n <? 0); [congruence|].
  destruct ip as [|v|v]; [congruence| |].
  - destruct (32 <? n); [congruence|]. now destruct (_ && _).
  - destruct (128 <? n); [congruence|]. now destruct (_ && _).
Qed.

Lemma fits_good (b p : Prefix) : fits b p -> good p.
Proof.
  intros [->|(f & H & _)]; [now left | right].
  eapply normal_in_normal; eauto.
Qed.

Lemma fits_Masked (b : Prefix) : fits b (Prefix_Masked b).
Proof.
  destruct (good_Masked b) as [E|N]; [now left | right].
  destruct (normal_normal_in _ N) as [f Hf]. exists f. split; [exact Hf|].
  symmetry. now apply Masked_Is4.
Qed.

Lemma subtractPrefix_fits (b p r : Prefix) :
  fits b p -> Forall (fits b) (subtractPrefix p r).
Proof.
  intros [->|(f & Hp & E)].
  - rewrite subtractPrefix_zero_base. constructor; [now left | constructor].
  - destruct (subtractPrefix_normal_base f p r Hp) as [H _].
    eapply Forall_impl; [|exact H].
    intros q Hq. right. exists f. split; [exact Hq|].
    now rewrite E, (normal_in_Is4 _ _ Hp), (normal_in_Is4 _ _ Hq).
Qed.

Lemma subtractFragments_fits (b : Prefix) (fragments : list Prefix) (r : Prefix) :
  Forall (fits b) fragments -> Forall (fits b) (subtractFragments fragments r).
Proof.
  intros H. rewrite subtractFragments_flat_map.
  apply Forall_flat_map. eapply Forall_impl; [|exact H].
  intros p Hp. now apply subtractPrefix_fits.
Qed.

(** An exclusion on the other side of the [Is4] test leaves the fragments
    as they are, skipped or not. *)
Lemma subtractFragments_other_side (b : Prefix) (fragments : list Prefix)
      (r : Prefix) :
  Forall (fits b) fragments ->
  Addr_Is4 (Prefix_Addr b) <> Addr_Is4 (Prefix_Addr r) ->
  subtractFragments fragments r = fragments.
Proof.
  intros H Hne. rewrite subtractFragments_flat_map.
  apply flat_map_singleton. intros p Hp.
  rewrite Forall_forall in H. destruct (H p Hp) as [->|(f & Hf & E)].
  - apply subtractPrefix_zero_base.
  - pose proof (normal_in_normal _ _ Hf) as N.
    assert (Ho : Prefix_Overlaps (Prefix_Masked p)
                                 (Prefix_Masked (Prefix_Masked r)) = false).
    { rewrite Masked_idem, (Masked_normal p N).
      apply (Overlaps_foreign f p _ Hf).
      destruct (good_Masked r) as [Ez|Nr]; [now left | right].
      destruct (normal_normal_in _ Nr) as [g Hg]. exists g. split; [|exact Hg].
      intros ->. apply Hne.
      rewrite E, <- (Masked_Is4 r Nr).
      now rewrite (normal_in_Is4 _ _ Hf), (normal_in_Is4 _ _ Hg). }
    now rewrite (subtractPrefix_no_overlap _ _ Ho), (Masked_normal p N).
Qed.

(** So the loop over the exclusions is a plain fold: the [continue] only
    skips exclusions that would change nothing. *)
Lemma baseFragments_fold (b : Prefix) (remove : list Prefix) :
  baseFragments b remove = fold_left subtractFragments remove [Prefix_Masked b]
  /\ Forall (fits b) (baseFragments b remove).
Proof.
  unfold baseFragments.
  assert (H : Forall (fits b) [Prefix_Masked b])
    by (constructor; [apply fits_Masked | constructor]).
  revert H. generalize [Prefix_Masked b].
  induction remove as [|r remove IH]; intros fragments H; cbn [fold_left].
  - auto.
  - destruct (Bool.eqb _ _) eqn:E; cbn [negb].
    + apply IH. now apply subtractFragments_fits.
    + apply eqb_false_iff in E.
      rewrite (subtractFragments_other_side b fragments r H E). now apply IH.
Qed.

Lemma fold_left_map {A B C : Type} (f : A -> B -> A) (g : C -> B) (l : list C)
      (a : A) :
  fold_left f (map g l) a = fold_left (fun x c => f x (g c)) l a.
Proof.
  revert a. induction l as [|c l IH]; intros a; [reflexivity|].
  cbn [map fold_left]. apply IH.
Qed.

(** ** Fragments stay clear of the exclusions applied *)

Lemma Overlaps_of_common (f : family) (p q : Prefix) (x : Z) :
  normal_in f p -> normal_in f q -> 0 <= x < 2 ^ width f ->
  covers p (addr_of f x) -> covers q (addr_of f x) ->
  Prefix_Overlaps p q = true.
Proof.
  intros (v & n & -> & Hv) (u & m & -> & Hu) Hx Hp Hq.
  pose proof Hu as (Hm & Hur & _). pose proof Hv as (Hn & Hvr & _).
  unfold covers in *. rewrite Contains_of, Z.eqb_eq in Hp, Hq by assumption.
  rewrite Overlaps_of, Z.eqb_eq by assumption.
  apply (div_coarsen _ _ _ (width f - Z.min n m)) in Hp; [|lia].
  apply (div_coarsen _ _ _ (width f - Z.min n m)) in Hq; [|lia].
  congruence.
Qed.

(** A good prefix clear of an exclusion is returned alone. *)
Lemma subtractPrefix_clear (p r : Prefix) :
  good p -> clear_of p r -> subtractPrefix p (Prefix_Masked r) = [p].
Proof.
  intros Hg Hc. pose proof (good_masked p Hg) as Hm. unfold masked in Hm.
  assert (Ho : Prefix_Overlaps (Prefix_Masked p)
                               (Prefix_Masked (Prefix_Masked r)) = false)
    by (rewrite Masked_idem, Hm; exact Hc).
  now rewrite (subtractPrefix_no_overlap _ _ Ho), Hm.
Qed.

(** The fragments of [p] minus [r] are clear of [r], and of whatever [p] was
    clear of. *)
Lemma subtractPrefix_clear_of (p r q : Prefix) :
  good p -> In q (subtractPrefix p (Prefix_Masked r)) ->
  good q /\ clear_of q r /\ forall r', clear_of p r' -> clear_of q r'.
Proof.
  intros Hg Hq.
  pose proof (subtractPrefix_good p (Prefix_Masked r)) as Hgood.
  rewrite Forall_forall in Hgood. split; [now apply Hgood|].
  destruct Hg as [->|N].
  { rewrite subtractPrefix_zero_base in Hq. destruct Hq as [<-|[]].
    split; [|intros r' _]; now apply Overlaps_invalid_l. }
  destruct (normal_normal_in _ N) as [f Hf].
  destruct (subtractPrefix_normal_base f p (Prefix_Masked r) Hf) as (Hn & _ & Hcov).
  rewrite Forall_forall in Hn. pose proof (Hn q Hq) as Hfq.
  assert (Hin : forall x, 0 <= x < 2 ^ width f -> covers q (addr_of f x) ->
                          covers p (addr_of f x)
                          /\ ~ covers (Prefix_Masked r) (addr_of f x)).
  { intros x Hx Hc.
    assert (Hwf : addr_wf (addr_of f x)) by (destruct f; exact Hx).
    rewrite <- (Masked_idem r). apply (Hcov _ Hwf).
    apply Exists_exists. eauto. }
  assert (Hclear : forall s, (forall x, 0 <= x < 2 ^ width f ->
                                        covers q (addr_of f x) ->
                                        ~ covers (Prefix_Masked s) (addr_of f x)) ->
                             clear_of q s).
  { intros s Hs. unfold clear_of.
    destruct (normal_family_cases f q Hfq _ (good_Masked s)) as [Hz|[Hr|Hfor]].
    - now apply (Overlaps_foreign f q _ Hfq (or_introl Hz)).
    - apply not_true_iff_false. intros Ho.
      destruct (Overlaps_common f _ _ Hfq Hr Ho) as (x & Hx & H1 & H2).
      exact (Hs x Hx H1 H2).
    - now apply (Overlaps_foreign f q _ Hfq (or_intror Hfor)). }
  split.
  - apply Hclear. intros x Hx Hc. now apply Hin.
  - intros r' Hp. apply Hclear. intros x Hx Hc Hr'.
    destruct (Hin x Hx Hc) as [Hpx _].
    destruct (normal_family_cases f p Hf _ (good_Masked r')) as [Hz|[Hr|Hfor]].
    + rewrite Hz in Hr'. unfold covers in Hr'.
      now rewrite Contains_invalid in Hr'.
    + unfold clear_of in Hp.
      now rewrite (Overlaps_of_common f p _ x Hf Hr Hx Hpx Hr') in Hp.
    + destruct (Overlaps_foreign f p _ Hf (or_intror Hfor)) as [_ Hd].
      apply (Hd (addr_of f x)). auto.
Qed.

Lemma subtractFragments_clear (fragments : list Prefix) (r : Prefix)
      (done : list Prefix) :
  Forall (fun p => good p /\ forall r', In r' done -> clear_of p r') fragments ->
  Forall (fun p => good p /\ forall r', In r' (done ++ [r]) -> clear_of p r')
         (subtractFragments fragments r).
Proof.
  intros H. rewrite subtractFragments_flat_map. apply Forall_flat_map.
  eapply Forall_impl; [|exact H]. intros p [Hg Hc].
  apply Forall_forall. intros q Hq.
  destruct (subtractPrefix_clear_of p r q Hg Hq) as (Hgq & Hcr & Hkeep).
  split; [exact Hgq|]. intros r' Hr'. apply in_app_or in Hr'.
  destruct Hr' as [Hr'|[<-|[]]]; auto.
Qed.

Lemma fold_subtractFragments_clear (remove done fragments : list Prefix) :
  Forall (fun p => good p /\ forall r', In r' done -> clear_of p r') fragments ->
  Forall (fun p => good p /\ forall r', In r' (done ++ remove) -> clear_of p r')
         (fold_left subtractFragments remove fragments).
Proof.
  revert done fragments.
  induction remove as [|r remove IH]; intros done fragments H; cbn [fold_left].
  - now rewrite app_nil_r.
  - replace (done ++ r :: remove) with ((done ++ [r]) ++ remove)
      by (now rewrite <- app_assoc).
    apply IH. now apply subtractFragments_clear.
Qed.

(** A fragment clear of every exclusion is a fixed point of the loop. *)
Lemma baseFragments_clear (p : Prefix) (remove : list Prefix) :
  good p -> (forall r, In r remove -> clear_of p r) ->
  baseFragments p remove = [p].
Proof.
  intros Hg Hc. rewrite (proj1 (baseFragments_fold p remove)).
  pose proof (good_masked p Hg) as Hm. unfold masked in Hm.
  rewrite Hm. clear Hm.
  induction remove as [|r remove IH]; [reflexivity|].
  rewrite fold_left_cons, subtractFragments_flat_map, flat_map_single.
  rewrite (subtractPrefix_clear p r Hg (Hc r (or_introl eq_refl))).
  apply IH. intros r' Hr'. apply Hc. now right.
Qed.

(** ** The parser on a failing token *)

Section ParserFailure.

Variable TrimSpace : string -> string.
Variable ParsePrefix : string -> option Prefix.
Variable ParseAddr : string -> option Addr.
Variable resolveHostname : string -> option string.

Lemma length_zero_empty (s : string) :
  (String.length s =? 0)%nat = true <-> s = EmptyString.
Proof.
  destruct s; cbn [String.length]; split; intros H;
    try reflexivity; try discriminate.
Qed.

Lemma splitCommaList_loop_cases (s : string) (splits out : list string) :
  (exists e, splitCommaList_loop TrimSpace s splits out = Err e)
  \/ (splitCommaList_loop TrimSpace s splits out = Ok (out ++ map TrimSpace splits)
      /\ forall t, In t splits -> TrimSpace t <> EmptyString).
Proof.
  revert out. induction splits as [|t splits IH]; intros out.
  - right. cbn [splitCommaList_loop map]. rewrite app_nil_r.
    split; [reflexivity | intros t []].
  - cbn [splitCommaList_loop].
    destruct (String.length (TrimSpace t) =? 0)%nat eqn:E; [left; eauto|].
    destruct (IH (out ++ [TrimSpace t])) as [He|[Hok Hne]]; [now left | right].
    split.
    + rewrite Hok. cbn [map]. now rewrite <- app_assoc.
    + intros t' [<-|Ht']; [|now apply Hne].
      intros Hempty. apply length_zero_empty in Hempty. congruence.
Qed.

Lemma parseWstunnelHostExcludes_loop_fails (parts : list string)
      (excludes : list Prefix) :
  Exists (part_fails ParsePrefix ParseAddr resolveHostname) parts ->
  exists e,
    parseWstunnelHostExcludes_loop ParsePrefix ParseAddr resolveHostname
                                   parts excludes = Err e.
Proof.
  intros H. revert excludes.
  induction H as [part rest Hf | part rest Hex IH]; intros excludes;
    cbn [parseWstunnelHostExcludes_loop].
  - destruct Hf as [[Hs Hp]|[(Hs & Ha & Hr)|(Hs & Ha & res & Hr & Hra)]];
      rewrite Hs.
    + rewrite Hp. eauto.
    + rewrite Ha, Hr. eauto.
    + rewrite Ha, Hr, Hra. eauto.
  - destruct (Contains_byte part slash).
    + destruct (ParsePrefix part); eauto.
    + destruct (ParseAddr part); [apply IH|].
      destruct (resolveHostname part) as [res|]; [|eauto].
      destruct (ParseAddr res); eauto.
Qed.

Lemma parseWstunnelHostExcludes_fails (s tok : string) :
  In tok (Split s comma) ->
  token_fails TrimSpace ParsePrefix ParseAddr resolveHostname tok ->
  exists e,
    parseWstunnelHostExcludes TrimSpace ParsePrefix ParseAddr resolveHostname s
    = Err e.
Proof.
  intros Hin Hf. unfold parseWstunnelHostExcludes, splitCommaList.
  destruct (splitCommaList_loop_cases s (Split s comma) [])
    as [[e He]|[Hok Hne]].
  - rewrite He. eauto.
  - rewrite Hok. cbn [app]. destruct Hf as [Hempty|Hpart].
    + now destruct (Hne tok Hin).
    + apply parseWstunnelHostExcludes_loop_fails.
      apply Exists_exists. exists (TrimSpace tok). split; [|exact Hpart].
      now apply in_map.
Qed.

End ParserFailure.

(** * Scenarios of the specification, run on the model *)

Example scenario_upper_half :
  subtractPrefix (mkPrefix (ip4 10 0 0 0) 24) (mkPrefix (ip4 10 0 0 128) 25)
  = [mkPrefix (ip4 10 0 0 0) 25].
Proof. vm_compute. reflexivity. Qed.

Example scenario_wider_exclusion :
  subtractPrefix (mkPrefix (ip4 10 0 0 0) 24) (mkPrefix (ip4 10 0 0 0) 23) = [].
Proof. vm_compute. reflexivity. Qed.

Example scenario_disjoint :
  subtractPrefix (mkPrefix (ip4 10 0 0 0) 24) (mkPrefix (ip4 172 16 0 0) 24)
  = [mkPrefix (ip4 10 0 0 0) 24].
Proof. vm_compute. reflexivity. Qed.

Example scenario_unmasked_arguments :
  subtractPrefix (mkPrefix (ip4 10 0 0 77) 24) (mkPrefix (ip4 10 0 0 129) 25)
  = [mkPrefix (ip4 10 0 0 0) 25].
Proof. vm_compute. reflexivity. Qed.

Example scenario_two_families :
  subtractPrefixList
    [mkPrefix (ip4 10 0 0 0) 24; mkPrefix (Addr6 (2 ^ 127)) 1]
    [mkPrefix (Addr6 (2 ^ 127 + 2 ^ 126)) 2; mkPrefix (ip4 10 0 0 128) 25]
  = [mkPrefix (ip4 10 0 0 0) 25; mkPrefix (Addr6 (2 ^ 127)) 2].
Proof. vm_compute. reflexivity. Qed.

Example scenario_split_host_panics :
  splitPrefix (mkPrefix (Addr6 0) 128) = Panic.
Proof. vm_compute. reflexivity. Qed.

Example scenario_resolved_host :
  demo_Apply (mkConfig "vpn.example.com" [mkPeer [mkPrefix (ip4 192 168 1 0) 24]])
  = (mkConfig "vpn.example.com" [mkPeer hole_punch_24],
     [LogExcludes "192.168.1.1/32";
      LogUpdated 1 "192.168.1.0/24" "?, ?, ?, ?, ?, ?, ?, ?"], None).
Proof. vm_compute. reflexivity. Qed.

Example scenario_bad_token :
  demo_Apply (mkConfig "10.0.0.1, badtoken!!" [mkPeer [mkPrefix (ip4 10 0 0 0) 24]])
  = (mkConfig "10.0.0.1, badtoken!!" [mkPeer [mkPrefix (ip4 10 0 0 0) 24]],
     [], Some (ErrResolve "badtoken!!")).
Proof. vm_compute. reflexivity. Qed.

(** * Properties *)

(** C1 (coverage).  For canonical prefixes [A] and [B] of the same family,
    an address lies in some fragment of [subtractPrefix A B] exactly when it
    lies in [A] and not in [B]. *)
Theorem subtractPrefix_coverage (A B : Prefix) (a : Addr) :
  canonical A -> canonical B -> same_family A B -> addr_wf a ->
  (Exists (fun p => covers p a) (subtractPrefix A B)
   <-> covers A a /\ ~ covers B a).
Proof.
  intros HA HB Hf Hwf.
  destruct (canonical_normal_in A HA) as [f HfA].
  destruct (canonical_normal_in B HB) as [g HgB].
  assert (f = g) by (eapply same_family_eq; eauto). subst g.
  now apply (subtractPrefix_cover_in f).
Qed.

Lemma subtractPrefix_coverage_witness :
  let A := mkPrefix (ip4 10 0 0 0) 24 in
  let B := mkPrefix (ip4 10 0 0 128) 25 in
  let a := ip4 10 0 0 5 in
  (canonical A /\ canonical B /\ same_family A B /\ addr_wf a)
  /\ (Exists (fun p => covers p a) (subtractPrefix A B)
      <-> covers A a /\ ~ covers B a).
Proof.
  intros A B a.
  assert (HA : canonical A) by (split; reflexivity).
  assert (HB : canonical B) by (split; reflexivity).
  assert (Hf : same_family A B) by reflexivity.
  assert (Ha : addr_wf a) by (unfold a, ip4, addr_wf; lia).
  split; [auto|]. exact (subtractPrefix_coverage A B a HA HB Hf Ha).
Defined.

(** C2 (disjointness).  For canonical prefixes [A] and [B] of the same
    family, two fragments at distinct positions of [subtractPrefix A B] do
    not overlap and no address lies in both. *)
Theorem subtractPrefix_disjoint (A B : Prefix) (i j : nat) (p q : Prefix) :
  canonical A -> canonical B -> same_family A B ->
  i <> j ->
  nth_error (subtractPrefix A B) i = Some p ->
  nth_error (subtractPrefix A B) j = Some q ->
  Prefix_Overlaps p q = false
  /\ forall a, addr_wf a -> ~ (covers p a /\ covers q a).
Proof.
  intros HA HB Hf Hij Hi Hj.
  destruct (canonical_normal_in A HA) as [f HfA].
  destruct (canonical_normal_in B HB) as [g HgB].
  assert (f = g) by (eapply same_family_eq; eauto). subst g.
  destruct (subtractPrefix_sorted_in f A B HfA HgB) as [Hs Hn].
  rewrite Forall_forall in Hn.
  pose proof (Hn p (nth_error_In _ _ Hi)) as Hp.
  pose proof (Hn q (nth_error_In _ _ Hj)) as Hq.
  destruct (Nat.lt_total i j) as [Hlt|[Heq|Hlt]]; [|contradiction|].
  - pose proof (StronglySorted_nth _ _ Hs i j p q Hlt Hi Hj) as Hb. split.
    + apply (below_not_Overlaps f p q); assumption.
    + intros a Hwf. now apply (below_disjoint f p q a).
  - pose proof (StronglySorted_nth _ _ Hs j i q p Hlt Hj Hi) as Hb. split.
    + apply (below_not_Overlaps f q p); assumption.
    + intros a Hwf [H1 H2]. now apply (below_disjoint f q p a Hq Hb Hwf).
Qed.

Lemma subtractPrefix_disjoint_witness :
  let A := mkPrefix (ip4 192 168 1 0) 24 in
  let B := mkPrefix (ip4 192 168 1 1) 32 in
  let p := mkPrefix (ip4 192 168 1 0) 32 in
  let q := mkPrefix (ip4 192 168 1 4) 30 in
  (canonical A /\ canonical B /\ same_family A B /\ 0%nat <> 2%nat
   /\ nth_error (subtractPrefix A B) 0 = Some p
   /\ nth_error (subtractPrefix A B) 2 = Some q)
  /\ (Prefix_Overlaps p q = false
      /\ forall a, addr_wf a -> ~ (covers p a /\ covers q a)).
Proof.
  intros A B p q.
  assert (HA : canonical A) by (split; reflexivity).
  assert (HB : canonical B) by (split; reflexivity).
  assert (Hf : same_family A B) by reflexivity.
  assert (Hij : 0%nat <> 2%nat) by lia.
  assert (Hi : nth_error (subtractPrefix A B) 0 = Some p) by reflexivity.
  assert (Hj : nth_error (subtractPrefix A B) 2 = Some q) by reflexivity.
  split; [auto 10|].
  exact (subtractPrefix_disjoint A B 0 2 p q HA HB Hf Hij Hi Hj).
Defined.

(** C3, amended (all or nothing).  When the specification is not blank
    and one of its tokens fails, [ApplyWstunnelHostExclusions] returns an
    error, logs nothing and leaves the configuration, and so every peer's
    [AllowedIPs], exactly as it was.  On a blank specification it returns
    nil and changes nothing.  Both hold whatever [TrimSpace], the two
    parsers, the resolver and the rendering compute. *)
Theorem ApplyWstunnelHostExclusions_all_or_nothing
        (TrimSpace : string -> string)
        (ParsePrefix : string -> option Prefix)
        (ParseAddr : string -> option Addr)
        (resolveHostname : string -> option string)
        (Prefix_String : Prefix -> string)
        (config : Config) (tok : string) :
  (TrimSpace (WstunnelHost config) <> EmptyString ->
   In tok (Split (WstunnelHost config) comma) ->
   token_fails TrimSpace ParsePrefix ParseAddr resolveHostname tok ->
   exists err,
     ApplyWstunnelHostExclusions TrimSpace ParsePrefix ParseAddr
                                 resolveHostname Prefix_String config
     = (config, [], Some err))
  /\ (TrimSpace (WstunnelHost config) = EmptyString ->
      ApplyWstunnelHostExclusions TrimSpace ParsePrefix ParseAddr
                                  resolveHostname Prefix_String config
      = (config, [], None)).
Proof.
  unfold ApplyWstunnelHostExclusions.
  destruct (String.eqb_spec (TrimSpace (WstunnelHost config)) EmptyString)
    as [E|E]; split; try contradiction; try reflexivity.
  intros _ Hin Hf.
  destruct (parseWstunnelHostExcludes_fails
              TrimSpace ParsePrefix ParseAddr resolveHostname _ _ Hin Hf)
    as [e He].
  rewrite He. eauto.
Qed.

Lemma ApplyWstunnelHostExclusions_all_or_nothing_witness :
  let config := mkConfig "10.0.0.1, badtoken!!"
                         [mkPeer [mkPrefix (ip4 10 0 0 0) 24]] in
  exists err, demo_Apply config = (config, [], Some err).
Proof.
  intros config.
  apply (proj1 (ApplyWstunnelHostExclusions_all_or_nothing
                  TrimSpace_ascii demo_ParsePrefix demo_ParseAddr
                  demo_resolveHostname demo_Prefix_String config
                  " badtoken!!")).
  - discriminate.
  - right. left. reflexivity.
  - right. right. left. repeat split; reflexivity.
Defined.

(** C3 as stated fails on a blank specification: its one token trims to
    empty, yet the call returns nil (the guard at the head of the function
    returns before anything is parsed). *)
Lemma ApplyWstunnelHostExclusions_blank_counterexample :
  let config := mkConfig "" [mkPeer [mkPrefix (ip4 10 0 0 0) 24]] in
  (exists tok,
      In tok (Split (WstunnelHost config) comma)
      /\ token_fails TrimSpace_ascii demo_ParsePrefix demo_ParseAddr
                     demo_resolveHostname tok)
  /\ ~ (exists err cfg' logs, demo_Apply config = (cfg', logs, Some err)).
Proof.
  intros config. split.
  - exists EmptyString. split; [now left | now left].
  - intros (err & cfg' & logs & H). discriminate H.
Qed.

(** C4 (address order).  On any arguments the fragments of
    [subtractPrefix A B] come in address order: every address of an earlier fragment is lower than every
    address of a later one.  And 192.168.1.0/24 minus 192.168.1.1/32 is the 8
    fragments of lengths 32, 31, ..., 25 of [hole_punch_24], pairwise
    disjoint, covering the addresses of 192.168.1.0/24 other than
    192.168.1.1. *)
Theorem subtractPrefix_address_order :
  (forall (A B : Prefix) (i j : nat) (p q : Prefix) (a b : Addr),
      (i < j)%nat ->
      nth_error (subtractPrefix A B) i = Some p ->
      nth_error (subtractPrefix A B) j = Some q ->
      addr_wf a -> addr_wf b -> covers p a -> covers q b ->
      Addr_Less a b = true)
  /\ (let base := mkPrefix (ip4 192 168 1 0) 24 in
      let host := mkPrefix (ip4 192 168 1 1) 32 in
      let l := subtractPrefix base host in
      l = hole_punch_24
      /\ List.length l = 8%nat
      /\ map Prefix_Bits l = [32; 31; 30; 29; 28; 27; 26; 25]
      /\ (forall i j p q a,
             i <> j -> nth_error l i = Some p -> nth_error l j = Some q ->
             addr_wf a -> ~ (covers p a /\ covers q a))
      /\ (forall a, addr_wf a ->
             (Exists (fun p => covers p a) l
              <-> covers base a /\ a <> ip4 192 168 1 1))).
Proof.
  split.
  - intros A B i j p q a b Hij Hi Hj Ha Hb Hpa Hqb.
    rewrite <- subtractPrefix_Masked in Hi, Hj.
    destruct (good_Masked A) as [E|N].
    { rewrite E, subtractPrefix_zero_base in Hj.
      destruct j as [|[|j]]; [lia | discriminate Hj | discriminate Hj]. }
    destruct (normal_normal_in _ N) as [f HfA].
    destruct (subtractPrefix_normal_base f _ (Prefix_Masked B) HfA)
      as (Hn & Hs & _).
    rewrite Forall_forall in Hn.
    pose proof (Hn p (nth_error_In _ _ Hi)) as Hp.
    pose proof (Hn q (nth_error_In _ _ Hj)) as Hq.
    destruct (covers_family _ _ _ Hp Ha Hpa) as (x & -> & Hx).
    destruct (covers_family _ _ _ Hq Hb Hqb) as (y & -> & Hy).
    apply Addr_Less_of.
    exact (StronglySorted_nth _ _ Hs i j p q Hij Hi Hj x y Hx Hy Hpa Hqb).
  - intros base host l.
    assert (Hb : normal_in V4 base).
    { exists (((192 * 256 + 168) * 256 + 1) * 256 + 0), 24.
      split; [reflexivity|]. unfold aligned. cbn [width].
      split; [lia|]. split; [lia|]. reflexivity. }
    assert (Hh : normal_in V4 host).
    { exists (((192 * 256 + 168) * 256 + 1) * 256 + 1), 32.
      split; [reflexivity|]. unfold aligned. cbn [width].
      split; [lia|]. split; [lia|]. reflexivity. }
    destruct (subtractPrefix_sorted_in V4 base host Hb Hh) as [Hs Hn].
    fold l in Hs, Hn. rewrite Forall_forall in Hn.
    split; [reflexivity|]. split; [reflexivity|]. split; [reflexivity|]. split.
    + intros i j p q a Hij Hi Hj Hwf.
      pose proof (Hn p (nth_error_In _ _ Hi)) as Hp.
      pose proof (Hn q (nth_error_In _ _ Hj)) as Hq.
      destruct (Nat.lt_total i j) as [Hlt|[Heq|Hlt]]; [|contradiction|].
      * apply (below_disjoint V4 p q a Hp); [|exact Hwf].
        exact (StronglySorted_nth _ _ Hs i j p q Hlt Hi Hj).
      * intros [H1 H2]. apply (below_disjoint V4 q p a Hq); [|exact Hwf|tauto].
        exact (StronglySorted_nth _ _ Hs j i q p Hlt Hj Hi).
    + intros a Hwf. unfold l.
      rewrite (subtractPrefix_cover_in V4 base host a Hb Hh Hwf).
      split; intros [Hc Hne]; (split; [exact Hc|]).
      * intros ->. apply Hne. reflexivity.
      * intros Hc'. apply Hne.
        destruct (covers_family _ _ _ Hb Hwf Hc) as (x & -> & Hx).
        unfold covers, host, ip4 in Hc'.
        change (mkPrefix (Addr4 ?v) ?n) with (prefix_of V4 v n) in Hc'.
        cbn [width] in Hx.
        rewrite Contains_of, Z.eqb_eq in Hc' by (cbn [width]; lia).
        cbn [width] in Hc'. change (2 ^ (32 - 32)) with 1 in Hc'.
        rewrite !Z.div_1_r in Hc'. unfold ip4. cbn [addr_of]. now f_equal.
Qed.

Lemma subtractPrefix_address_order_witness :
  let A := mkPrefix (ip4 192 168 1 0) 24 in
  let B := mkPrefix (ip4 192 168 1 1) 32 in
  Addr_Less (ip4 192 168 1 0) (ip4 192 168 1 3) = true.
Proof.
  intros A B.
  refine (proj1 subtractPrefix_address_order A B 0%nat 1%nat
            (mkPrefix (ip4 192 168 1 0) 32) (mkPrefix (ip4 192 168 1 2) 31)
            (ip4 192 168 1 0) (ip4 192 168 1 3) _ _ _ _ _ _ _);
    try reflexivity; try lia; unfold addr_wf, ip4; lia.
Defined.

(** C5 (idempotence).  Applying the same exclusion list to the result of
    [subtractPrefixList] gives that result again. *)
Theorem subtractPrefixList_idempotent (bases removes : list Prefix) :
  subtractPrefixList (subtractPrefixList bases removes) removes
  = subtractPrefixList bases removes.
Proof.
  rewrite !subtractPrefixList_flat_map, flat_map_flat_map.
  apply flat_map_ext. intros b.
  apply flat_map_singleton. intros p Hp.
  rewrite (proj1 (baseFragments_fold b removes)) in Hp.
  assert (H0 : Forall (fun q => good q /\ forall r', In r' [] -> clear_of q r')
                      [Prefix_Masked b]).
  { constructor; [|constructor]. split; [apply good_Masked | intros r' []]. }
  pose proof (fold_subtractFragments_clear removes [] [Prefix_Masked b] H0) as H.
  rewrite app_nil_l, Forall_forall in H.
  destruct (H p Hp) as [Hg Hc].
  now apply baseFragments_clear.
Qed.

(** C6 (family isolation).  The fragments of the whole list are those of
    each base on its own, in order, and the fragments of a base [b] do not
    change when the exclusions of the opposite family (IPv6 for an IPv4
    base, IPv4 for an IPv6 base) are taken out of the exclusion list. *)
Theorem subtractPrefixList_family_isolation (bases removes : list Prefix) :
  subtractPrefixList bases removes
  = flat_map (fun b => subtractPrefixList [b] removes) bases
  /\ forall b,
      subtractPrefixList [b] removes
      = subtractPrefixList
          [b] (filter (fun r => negb (opposite_family b r)) removes).
Proof.
  split.
  - rewrite subtractPrefixList_flat_map. apply flat_map_ext.
    intros b. now rewrite subtractPrefixList_single.
  - intros b. rewrite !subtractPrefixList_single. unfold baseFragments.
    generalize [Prefix_Masked b].
    induction removes as [|r removes IH]; intros fragments; [reflexivity|].
    cbn [fold_left filter].
    destruct (opposite_family b r) eqn:Eo; cbn [negb fold_left].
    + replace (Bool.eqb (Addr_Is4 (Prefix_Addr b)) (Addr_Is4 (Prefix_Addr r)))
        with false; [apply IH|].
      unfold opposite_family, Addr_Is6 in Eo.
      destruct (Prefix_Addr b), (Prefix_Addr r); try discriminate; reflexivity.
    + apply IH.
Qed.

(** C7 (canonical results).  Every prefix [subtractPrefix] and
    [subtractPrefixList] return is in masked form, with the address bits
    beyond its length zero; and both give, on any arguments, the result
    they give on the masked arguments. *)
Theorem subtract_results_canonical (base remove : Prefix)
        (bases removes : list Prefix) :
  Forall (fun p => masked p /\ low_bits_zero p) (subtractPrefix base remove)
  /\ subtractPrefix base remove
     = subtractPrefix (Prefix_Masked base) (Prefix_Masked remove)
  /\ Forall (fun p => masked p /\ low_bits_zero p)
            (subtractPrefixList bases removes)
  /\ subtractPrefixList bases removes
     = subtractPrefixList (map Prefix_Masked bases) (map Prefix_Masked removes).
Proof.
  assert (Hg : forall p, good p -> masked p /\ low_bits_zero p)
    by (intros p Hp; split; [now apply good_masked | now apply good_low_bits_zero]).
  split; [|split; [|split]].
  - eapply Forall_impl; [exact Hg | apply subtractPrefix_good].
  - symmetry. apply subtractPrefix_Masked.
  - rewrite subtractPrefixList_flat_map. apply Forall_flat_map.
    apply Forall_forall. intros b _.
    eapply Forall_impl; [|exact (proj2 (baseFragments_fold b removes))].
    intros p Hp. apply Hg. eapply fits_good; eauto.
  - rewrite !subtractPrefixList_flat_map, flat_map_map.
    apply flat_map_ext. intros b.
    rewrite (proj1 (baseFragments_fold b removes)).
    rewrite (proj1 (baseFragments_fold _ _)), Masked_idem, fold_left_map.
    generalize [Prefix_Masked b].
    induction removes as [|r removes IH]; intros fragments.
    + now rewrite !fold_left_nil.
    + rewrite !fold_left_cons, subtractFragments_Masked. apply IH.
Qed.

(** C8 (termination).  On canonical same-family prefixes [subtractPrefix]
    returns, without panic, within [width - bits] nested calls after the
    outer one (at most 32 for IPv4, 128 for IPv6); each nested call has a
    base exactly one bit longer than its caller's. *)
Theorem subtractPrefix_terminates (A B : Prefix) :
  canonical A -> canonical B -> same_family A B ->
  let depth := Z.to_nat (maxPrefixBits A - Prefix_Bits A) in
  (depth <= if Addr_Is4 (Prefix_Addr A) then 32 else 128)%nat
  /\ exists l calls,
      subtractPrefix_fuel (S depth) A B = Ret l
      /\ subtractPrefix A B = l
      /\ subtractPrefix_calls (S depth) A B = Ret calls
      /\ nth_error calls 0 = Some A
      /\ (List.length calls - 1 <= depth)%nat
      /\ one_more_bit calls.
Proof.
  intros HA _ _ depth.
  destruct (canonical_normal_in A HA) as (f & v & n & -> & Hv).
  pose proof Hv as (Hn & _).
  subst depth. rewrite maxPrefixBits_of. cbn [prefix_of Prefix_Bits Prefix_Addr].
  split.
  - destruct f; cbn [addr_of Addr_Is4 width] in *; lia.
  - destruct (subtractPrefix_calls_normal (S (Z.to_nat (width f - n))) f v n B Hv
                                          ltac:(lia))
      as (l & calls & El & Ec & H0 & Hlen & Hch).
    exists l, calls. repeat split; try assumption.
    + eapply subtractPrefix_of_fuel; eauto.
    + lia.
Qed.

Lemma subtractPrefix_terminates_witness :
  let A := mkPrefix (ip4 192 168 1 0) 24 in
  let B := mkPrefix (ip4 192 168 1 1) 32 in
  (8 <= 32)%nat
  /\ exists l calls,
      subtractPrefix_fuel 9 A B = Ret l
      /\ subtractPrefix A B = l
      /\ subtractPrefix_calls 9 A B = Ret calls
      /\ nth_error calls 0 = Some A
      /\ (List.length calls - 1 <= 8)%nat
      /\ one_more_bit calls.
Proof.
  intros A B.
  apply (subtractPrefix_terminates A B);
    try reflexivity; split; reflexivity.
Defined.

(** C9 (one half overlaps).  In the recursive step (canonical same-family
    [base] and [remove] that overlap, [remove] not containing [base],
    [base] shorter than the family width), exactly one of the halves of
    [splitPrefix base] overlaps [remove], and the other half, returned whole,
    holds no address of [remove]. *)
Theorem splitPrefix_one_half_overlaps (base remove : Prefix) :
  canonical base -> canonical remove -> same_family base remove ->
  Prefix_Overlaps base remove = true ->
  Prefix_Contains remove (Prefix_Addr base)
  && (Prefix_Bits remove <=? Prefix_Bits base) = false ->
  Prefix_Bits base < maxPrefixBits base ->
  exists left_ right_,
    splitPrefix base = Ret (left_, right_)
    /\ xorb (Prefix_Overlaps remove left_) (Prefix_Overlaps remove right_) = true
    /\ forall a, addr_wf a -> covers remove a ->
         ~ covers (if Prefix_Overlaps remove left_ then right_ else left_) a.
Proof.
  intros HA HB Hf Ho Hc Hlt.
  destruct (canonical_normal_in base HA) as [f HfA].
  destruct (canonical_normal_in remove HB) as [g HgB].
  assert (f = g) by (eapply same_family_eq; eauto). subst g.
  destruct HfA as (v & n & -> & Hv). destruct HgB as (u & m & -> & Hu).
  rewrite maxPrefixBits_of in Hlt. cbn [prefix_of Prefix_Bits Prefix_Addr] in *.
  pose proof Hu as (Hm & Hur & _). pose proof Hv as (Hn & Hvr & _).
  destruct (split_conditions f v n u m Hv Hu Ho Hc) as [Hnm Hin].
  destruct (half_range _ _ _ Hv Hlt) as [Hal Har].
  pose proof Har as (_ & Hrr & _).
  destruct (half_quotients _ _ _ Hv Hlt) as [Eq1 Eq2].
  pose proof (proj1 (half_split _ _ _ u Hv Hlt) Hin) as Hhalf.
  eexists _, _. split; [apply splitPrefix_of; assumption|].
  fold (prefix_of f u m).
  rewrite !Overlaps_of by assumption. rewrite !Z.min_r by lia.
  split.
  - destruct (Z.eqb_spec (u / 2 ^ (width f - (n + 1)))
                         (v / 2 ^ (width f - (n + 1)))),
             (Z.eqb_spec (u / 2 ^ (width f - (n + 1)))
                         ((v + 2 ^ (width f - n - 1)) / 2 ^ (width f - (n + 1))));
      cbn [xorb]; lia.
  - intros a Hwf Hra Hoa.
    assert (Hr : normal_in f (prefix_of f u m)) by (exists u, m; auto).
    destruct (covers_family _ _ _ Hr Hwf Hra) as (x & -> & Hx).
    unfold covers in Hra, Hoa.
    rewrite Contains_of, Z.eqb_eq in Hra by assumption.
    apply (div_coarsen _ _ (width f - m) (width f - (n + 1))) in Hra; [|lia].
    destruct (Z.eqb_spec (u / 2 ^ (width f - (n + 1)))
                         (v / 2 ^ (width f - (n + 1)))) as [E|E];
      rewrite Contains_of, Z.eqb_eq in Hoa by (assumption || lia); lia.
Qed.

Lemma splitPrefix_one_half_overlaps_witness :
  let base := mkPrefix (ip4 192 168 1 0) 24 in
  let remove := mkPrefix (ip4 192 168 1 1) 32 in
  exists left_ right_,
    splitPrefix base = Ret (left_, right_)
    /\ xorb (Prefix_Overlaps remove left_) (Prefix_Overlaps remove right_) = true
    /\ forall a, addr_wf a -> covers remove a ->
         ~ covers (if Prefix_Overlaps remove left_ then right_ else left_) a.
Proof.
  intros base remove.
  apply (splitPrefix_one_half_overlaps base remove);
    try reflexivity; try (split; reflexivity).
Defined.

(** C10 (the split is in range).  When [subtractPrefix] reaches its call of
    [splitPrefix], the masked base is shorter than its family width; the
    IPv4 shift count [31 - bits] is in [0, 31]; for IPv6 the byte index
    [bits / 8] is in [0, 15] and the bit index [7 - bits % 8] in [0, 7];
    [splitPrefix] does not panic and its halves are valid canonical prefixes
    of length [bits + 1], which is at most the family width. *)
Theorem splitPrefix_call_in_range (base remove : Prefix) :
  let b := Prefix_Masked base in
  let r := Prefix_Masked remove in
  Prefix_Overlaps b r = true ->
  Prefix_Contains r (Prefix_Addr b) && (Prefix_Bits r <=? Prefix_Bits b) = false ->
  (maxPrefixBits b <=? Prefix_Bits b) = false ->
  0 <= Prefix_Bits b < maxPrefixBits b
  /\ (Addr_Is4 (Prefix_Addr b) = true ->
      uint32 (31 - uint32 (Prefix_Bits b)) = 31 - Prefix_Bits b
      /\ 0 <= 31 - Prefix_Bits b <= 31)
  /\ (Addr_Is4 (Prefix_Addr b) = false ->
      0 <= Z.quot (Prefix_Bits b) 8 <= 15
      /\ 0 <= 7 - Z.rem (Prefix_Bits b) 8 <= 7)
  /\ exists left_ right_,
      splitPrefix b = Ret (left_, right_)
      /\ canonical left_ /\ canonical right_
      /\ Prefix_Bits left_ = Prefix_Bits b + 1
      /\ Prefix_Bits right_ = Prefix_Bits b + 1
      /\ Prefix_Bits b + 1 <= maxPrefixBits b.
Proof.
  intros b r Ho _ Hg.
  assert (Hn : normal b).
  { destruct (Masked_cases base) as [E|N]; [|exact N].
    fold b in E. rewrite E in Ho. discriminate. }
  destruct Hn as [f v n Hv]. pose proof Hv as (Hn & Hvr & _).
  rewrite maxPrefixBits_of in *. cbn [prefix_of Prefix_Bits Prefix_Addr] in *.
  apply Z.leb_gt in Hg.
  destruct (half_range _ _ _ Hv Hg) as [Hal Har].
  split; [lia|]. split; [|split].
  - intros H4. destruct f; [|discriminate]. cbn [width] in *.
    unfold uint32. rewrite (Z.mod_small n), Z.mod_small by lia. lia.
  - intros H4. destruct f; [discriminate|]. cbn [width] in *.
    rewrite Z.quot_div_nonneg, Z.rem_mod_nonneg by lia.
    pose proof (Z.mod_pos_bound n 8 ltac:(lia)).
    assert (0 <= n / 8 < 16)
      by (split; [apply Z.div_pos; lia | apply Z.div_lt_upper_bound; lia]).
    lia.
  - eexists _, _. split; [apply splitPrefix_of; assumption|].
    split; [apply (normal_in_canonical f); eexists _, _; eauto|].
    split; [apply (normal_in_canonical f); eexists _, _; eauto|].
    cbn [prefix_of Prefix_Bits]. lia.
Qed.

Lemma splitPrefix_call_in_range_witness :
  let b := Prefix_Masked (mkPrefix (Addr6 (2 ^ 125 + 7)) 64) in
  0 <= Prefix_Bits b < maxPrefixBits b
  /\ (Addr_Is4 (Prefix_Addr b) = false ->
      0 <= Z.quot (Prefix_Bits b) 8 <= 15
      /\ 0 <= 7 - Z.rem (Prefix_Bits b) 8 <= 7).
Proof.
  intros b.
  destruct (splitPrefix_call_in_range
              (mkPrefix (Addr6 (2 ^ 125 + 7)) 64)
              (mkPrefix (Addr6 (2 ^ 125 + 2 ^ 20)) 100)
              eq_refl eq_refl eq_refl) as (H1 & _ & H3 & _).
  split; [exact H1 | exact H3].
Defined.

(** * Further properties of the code *)

(** ** Host prefixes, halves and single bits *)

Lemma addr_wf_cases (a : Addr) :
  addr_wf a ->
  a = AddrZero \/ exists f x, a = addr_of f x /\ 0 <= x < 2 ^ width f.
Proof.
  destruct a as [|x|x]; intros H; [now left | right | right].
  - exists V4, x. auto.
  - exists V6, x. auto.
Qed.

Lemma aligned_host (f : family) (v : Z) :
  0 <= v < 2 ^ width f -> aligned (width f) v (width f).
Proof.
  intros Hv. unfold aligned. rewrite Z.sub_diag, Z.pow_0_r, Z.mod_1_r.
  destruct f; cbn [width] in *; lia.
Qed.




(** X2 (the halves partition the prefix).  On a canonical prefix shorter
    than its family width, [splitPrefix] returns two canonical prefixes one
    bit longer: the left one keeps the address, and every address of the
    prefix lies in exactly one of the two. *)
Theorem splitPrefix_partition (p : Prefix) (a : Addr) :
  canonical p -> Prefix_Bits p < maxPrefixBits p -> addr_wf a ->
  exists left_ right_,
    splitPrefix p = Ret (left_, right_)
    /\ canonical left_ /\ canonical right_
    /\ Prefix_Addr left_ = Prefix_Addr p
    /\ Prefix_Bits left_ = Prefix_Bits p + 1
    /\ Prefix_Bits right_ = Prefix_Bits p + 1
    /\ (covers p a <-> covers left_ a \/ covers right_ a)
    /\ ~ (covers left_ a /\ covers right_ a).
Proof.
  intros Hp Hlt Hwf.
  destruct (canonical_normal_in p Hp) as (f & v & n & -> & Hv).
  rewrite maxPrefixBits_of in Hlt. cbn [prefix_of Prefix_Bits] in Hlt.
  pose proof Hv as (Hn & Hvr & _).
  destruct (half_range _ _ _ Hv Hlt) as [Hal Har].
  pose proof Har as (_ & Hrr & _).
  destruct (half_quotients _ _ _ Hv Hlt) as [Eq1 Eq2].
  assert (Nl : normal_in f (prefix_of f v (n + 1))) by (eexists _, _; eauto).
  assert (Nr : normal_in f (prefix_of f (v + 2 ^ (width f - n - 1)) (n + 1)))
    by (eexists _, _; eauto).
  assert (Np : normal_in f (prefix_of f v n)) by (eexists _, _; eauto).
  eexists _, _. split; [apply splitPrefix_of; assumption|].
  split; [now apply (normal_in_canonical f)|].
  split; [now apply (normal_in_canonical f)|].
  split; [reflexivity|]. split; [reflexivity|]. split; [reflexivity|].
  destruct (addr_wf_cases a Hwf) as [->|(g & x & -> & Hx)].
  { unfold covers. rewrite !Contains_AddrZero. split; [|intros [H _]; discriminate].
    split; [discriminate | intros [H|H]; discriminate]. }
  destruct (family_eq_dec f g) as [<-|Hfg].
  - unfold covers. rewrite !Contains_of, !Z.eqb_eq by (assumption || lia).
    rewrite (half_split _ _ _ x Hv Hlt). split; [reflexivity | lia].
  - unfold covers. rewrite !Contains_other_family by assumption.
    split; [|intros [H _]; discriminate].
    split; [discriminate | intros [H|H]; discriminate].
Qed.

Lemma splitPrefix_partition_witness :
  exists left_ right_,
    splitPrefix (mkPrefix (ip4 10 0 0 0) 24) = Ret (left_, right_)
    /\ canonical left_ /\ canonical right_
    /\ Prefix_Addr left_ = ip4 10 0 0 0
    /\ Prefix_Bits left_ = 24 + 1
    /\ Prefix_Bits right_ = 24 + 1
    /\ (covers (mkPrefix (ip4 10 0 0 0) 24) (ip4 10 0 0 200)
        <-> covers left_ (ip4 10 0 0 200) \/ covers right_ (ip4 10 0 0 200))
    /\ ~ (covers left_ (ip4 10 0 0 200) /\ covers right_ (ip4 10 0 0 200)).
Proof.
  apply (splitPrefix_partition (mkPrefix (ip4 10 0 0 0) 24) (ip4 10 0 0 200)).
  - split; reflexivity.
  - reflexivity.
  - unfold addr_wf, ip4. lia.
Defined.

(** X3 (the bit that [setBit128] sets).  On the 16 bytes of an IPv6 address
    of value [v], and for [bit] in [0, 127], [setBit128] does not panic and
    gives the 16 bytes of the address whose bits are those of [v] with the
    bit number [bit] from the most significant end (weight
    [2 ^ (127 - bit)]) set; no other bit changes. *)
Theorem setBit128_sets_bit (v bit : Z) :
  0 <= v < 2 ^ 128 -> 0 <= bit < 128 ->
  exists addr',
    setBit128 (Addr_As16 (Addr6 v)) bit = Some addr'
    /\ List.length addr' = 16%nat
    /\ addr_wf (AddrFrom16 addr')
    /\ forall k, 0 <= k ->
         Z.testbit (Addr_value (AddrFrom16 addr')) k
         = Z.testbit v k || (k =? 127 - bit).
Proof.
  intros Hv Hb. cbn [Addr_As16].
  exists (be_bytes 16 (Z.lor v (2 ^ (127 - bit)))).
  split; [now apply setBit128_be_bytes|].
  split; [apply be_bytes_length|].
  unfold AddrFrom16. rewrite be_value_be_bytes.
  change (8 * Z.of_nat 16) with 128. cbn [addr_wf Addr_value].
  split; [apply Z.mod_pos_bound; lia|].
  intros k Hk.
  rewrite Z.testbit_mod_pow2, Z.lor_spec, Z.pow2_bits_eqb by lia.
  destruct (Z.ltb_spec k 128) as [Hlt|Hge]; cbn [andb].
  - f_equal. apply Z.eqb_sym.
  - destruct (Z.eqb_spec k (127 - bit)); [lia|].
    rewrite orb_false_r. symmetry.
    rewrite <- (Z.mod_small v (2 ^ 128)) by lia.
    apply Z.mod_pow2_bits_high. lia.
Qed.

Lemma setBit128_sets_bit_witness :
  exists addr',
    setBit128 (Addr_As16 (Addr6 5)) 120 = Some addr'
    /\ List.length addr' = 16%nat
    /\ addr_wf (AddrFrom16 addr')
    /\ forall k, 0 <= k ->
         Z.testbit (Addr_value (AddrFrom16 addr')) k
         = Z.testbit 5 k || (k =? 127 - 120).
Proof. apply (setBit128_sets_bit 5 120); lia. Defined.

(** X4 (when [setBit128] panics).  On a 16-byte array the index
    [bit / 8] is out of range, and the call panics, exactly when
    [bit <= -8] or [bit >= 128]. *)
Theorem setBit128_panics_iff (addr : list Z) (bit : Z) :
  List.length addr = 16%nat ->
  (setBit128 addr bit = None <-> bit <= -8 \/ 128 <= bit).
Proof.
  intros Hlen. unfold setBit128, update_byte. rewrite Hlen.
  change (Z.of_nat 16) with 16.
  assert (Hq : 0 <= Z.quot bit 8 < 16 <-> -8 < bit < 128).
  { pose proof (Z.quot_rem' bit 8) as E.
    pose proof (Z.rem_bound_abs bit 8 ltac:(lia)) as Hr.
    change (Z.abs 8) with 8 in Hr.
    destruct (Z.le_ge_cases 0 bit) as [Hp|Hn].
    - pose proof (Z.rem_nonneg bit 8 ltac:(lia) Hp). lia.
    - pose proof (Z.rem_nonpos bit 8 ltac:(lia) ltac:(lia)). lia. }
  destruct (Z.leb_spec 0 (Z.quot bit 8)), (Z.ltb_spec (Z.quot bit 8) 16);
    cbn [andb]; split; intros Hx; try discriminate; try reflexivity; lia.
Qed.

Lemma setBit128_panics_iff_witness :
  setBit128 (be_bytes 16 0) 128 = None <-> 128 <= -8 \/ 128 <= 128.
Proof. apply (setBit128_panics_iff (be_bytes 16 0) 128). reflexivity. Defined.

(** ** What [subtractPrefix] returns, by cases *)

Lemma app_singleton_inv {A : Type} (l : list A) (x y : A) :
  l ++ [x] = [y] -> l = [] /\ x = y.
Proof.
  destruct l as [|a [|b l]]; cbn; intros H; inversion H; auto.
Qed.

(** X5 (untouched or annihilated).  For canonical prefixes of one family,
    [subtractPrefix A B] is [A] alone exactly when [A] and [B] do not
    overlap, and is empty exactly when [B] contains [A] (the second test of
    the code). *)
Theorem subtractPrefix_unchanged_or_empty (A B : Prefix) :
  canonical A -> canonical B -> same_family A B ->
  (subtractPrefix A B = [A] <-> Prefix_Overlaps A B = false)
  /\ (subtractPrefix A B = []
      <-> Prefix_Contains B (Prefix_Addr A) = true
          /\ Prefix_Bits B <= Prefix_Bits A).
Proof.
  intros HA HB Hf.
  destruct (canonical_normal_in A HA) as [f HfA].
  destruct (canonical_normal_in B HB) as [g HgB].
  assert (f = g) by (eapply same_family_eq; eauto). subst g.
  destruct HfA as (v & n & -> & Hv). destruct HgB as (u & m & -> & Hu).
  pose proof Hu as (Hm & Hur & _). pose proof Hv as (Hn & Hvr & _).
  pose proof (subtractPrefix_subtracts f u m v n Hu Hv) as Hs.
  rewrite Overlaps_of by assumption.
  cbn [prefix_of Prefix_Addr Prefix_Bits]. fold (prefix_of f u m).
  rewrite Contains_of by assumption. rewrite Z.eqb_eq, Z.eqb_neq.
  inversion Hs as [v' n' Hd E1 E2 | v' n' Hmn Hc E1 E2
                  | v' n' l Hnm Ho Hl Hs' E1 E2 | v' n' l Hnm Ho Hl Hs' E1 E2].
  - split; [tauto|]. split; [discriminate|]. intros [Hc Hle].
    exfalso. apply Hd. now rewrite Z.min_r by lia.
  - split; [|tauto]. split; [discriminate|]. intros Hne.
    exfalso. apply Hne. now rewrite Z.min_r by lia.
  - split; split.
    + intros E. apply app_singleton_inv in E. destruct E as [_ E].
      apply (f_equal Prefix_Bits) in E. cbn [prefix_of Prefix_Bits] in E. lia.
    + intros Hne. exfalso. apply Hne. now rewrite Z.min_l by lia.
    + intros E. now destruct l.
    + lia.
  - split; split.
    + intros E. apply (f_equal (map Prefix_Bits)) in E.
      cbn [map prefix_of Prefix_Bits] in E. injection E as E _. lia.
    + intros Hne. exfalso. apply Hne. now rewrite Z.min_l by lia.
    + discriminate.
    + lia.
Qed.

Lemma subtractPrefix_unchanged_or_empty_witness :
  let A := mkPrefix (ip4 10 0 0 0) 24 in
  let B := mkPrefix (ip4 10 0 0 0) 23 in
  (subtractPrefix A B = [A] <-> Prefix_Overlaps A B = false)
  /\ (subtractPrefix A B = []
      <-> Prefix_Contains B (Prefix_Addr A) = true
          /\ Prefix_Bits B <= Prefix_Bits A).
Proof.
  intros A B. apply (subtractPrefix_unchanged_or_empty A B);
    try reflexivity; split; reflexivity.
Defined.

Lemma subtracts_lengths (f : family) (u m v n : Z) (l : list Prefix) :
  aligned (width f) u m ->
  subtracts f u m v n l -> aligned (width f) v n ->
  n <= m -> v / 2 ^ (width f - n) = u / 2 ^ (width f - n) ->
  Z.of_nat (List.length l) = m - n
  /\ (forall p, In p l -> n < Prefix_Bits p <= m)
  /\ (forall k, n < k <= m -> exists p, In p l /\ Prefix_Bits p = k).
Proof.
  intros Hu Hs.
  induction Hs as [v n Hd | v n Hmn Hc | v n l Hnm Ho Hl Hs IH
                  | v n l Hnm Ho Hl Hs IH]; intros Hv Hle Hin;
    pose proof Hu as (Hm & Hur & _).
  - exfalso. apply Hd. now rewrite Z.min_l by lia.
  - cbn [List.length]. split; [lia|]. split; [intros p []|]. intros k Hk. lia.
  - assert (Hlt : n < width f) by lia.
    destruct (half_range _ _ _ Hv Hlt) as [Hal Har].
    destruct (IH Hal ltac:(lia) (eq_sym Hl)) as (Hlen & Hall & Hex).
    rewrite length_app, Nat2Z.inj_add. cbn [List.length].
    split; [lia|]. split.
    + intros p Hp. apply in_app_or in Hp. destruct Hp as [Hp|[<-|[]]].
      * specialize (Hall p Hp). lia.
      * cbn [prefix_of Prefix_Bits]. lia.
    + intros k Hk. destruct (Z.eq_dec k (n + 1)) as [->|Hne].
      * eexists. split; [apply in_or_app; right; left; reflexivity|reflexivity].
      * destruct (Hex k ltac:(lia)) as (p & Hp & Hb).
        exists p. split; [apply in_or_app; now left | exact Hb].
  - assert (Hlt : n < width f) by lia.
    destruct (half_range _ _ _ Hv Hlt) as [Hal Har].
    assert (Hr : (v + 2 ^ (width f - n - 1)) / 2 ^ (width f - (n + 1))
                 = u / 2 ^ (width f - (n + 1))).
    { pose proof (proj1 (half_split _ _ _ u Hv Hlt) (eq_sym Ho)) as [E|E];
        [contradiction | now symmetry]. }
    destruct (IH Har ltac:(lia) Hr) as (Hlen & Hall & Hex).
    cbn [app List.length]. rewrite Nat2Z.inj_succ.
    split; [lia|]. split.
    + intros p [<-|Hp].
      * cbn [prefix_of Prefix_Bits]. lia.
      * specialize (Hall p Hp). lia.
    + intros k Hk. destruct (Z.eq_dec k (n + 1)) as [->|Hne].
      * eexists. split; [left; reflexivity | reflexivity].
      * destruct (Hex k ltac:(lia)) as (p & Hp & Hb).
        exists p. split; [now right | exact Hb].
Qed.

(** X6 (size of the hole punch).  When canonical [A] and [B] of one family
    overlap and [B] is at least as long as [A], [subtractPrefix A B] has
    exactly [Bits B - Bits A] fragments, and their lengths are
    [Bits A + 1], ..., [Bits B]: each of these lengths occurs, and no
    other. *)
Theorem subtractPrefix_hole_punch (A B : Prefix) :
  canonical A -> canonical B -> same_family A B ->
  Prefix_Overlaps A B = true -> Prefix_Bits A <= Prefix_Bits B ->
  Z.of_nat (List.length (subtractPrefix A B)) = Prefix_Bits B - Prefix_Bits A
  /\ (forall p, In p (subtractPrefix A B) ->
                Prefix_Bits A < Prefix_Bits p <= Prefix_Bits B)
  /\ (forall k, Prefix_Bits A < k <= Prefix_Bits B ->
                exists p, In p (subtractPrefix A B) /\ Prefix_Bits p = k).
Proof.
  intros HA HB Hf Ho Hle.
  destruct (canonical_normal_in A HA) as [f HfA].
  destruct (canonical_normal_in B HB) as [g HgB].
  assert (f = g) by (eapply same_family_eq; eauto). subst g.
  destruct HfA as (v & n & -> & Hv). destruct HgB as (u & m & -> & Hu).
  cbn [prefix_of Prefix_Bits] in *.
  rewrite Overlaps_of, Z.eqb_eq, Z.min_l in Ho by (assumption || lia).
  exact (subtracts_lengths f u m v n _ Hu (subtractPrefix_subtracts f u m v n Hu Hv)
                           Hv Hle Ho).
Qed.

Lemma subtractPrefix_hole_punch_witness :
  let A := mkPrefix (ip4 192 168 1 0) 24 in
  let B := mkPrefix (ip4 192 168 1 1) 32 in
  Z.of_nat (List.length (subtractPrefix A B)) = 32 - 24
  /\ (forall p, In p (subtractPrefix A B) -> 24 < Prefix_Bits p <= 32)
  /\ (forall k, 24 < k <= 32 ->
                exists p, In p (subtractPrefix A B) /\ Prefix_Bits p = k).
Proof.
  intros A B. apply (subtractPrefix_hole_punch A B);
    try reflexivity; try (split; reflexivity). cbn. lia.
Defined.

(** ** The list driver: coverage, exclusions kept out, order *)

Lemma covers_zeroPrefix (a : Addr) : ~ covers zeroPrefix a.
Proof. unfold covers. now rewrite Contains_invalid. Qed.

(** One exclusion folded over good fragments takes its addresses out. *)
Lemma subtractFragments_cover (fragments : list Prefix) (r : Prefix) (a : Addr) :
  Forall good fragments -> addr_wf a ->
  (Exists (fun p => covers p a) (subtractFragments fragments r)
   <-> Exists (fun p => covers p a) fragments
       /\ ~ covers (Prefix_Masked r) a).
Proof.
  intros Hg Hwf. rewrite subtractFragments_flat_map, Exists_flat_map.
  rewrite !Exists_exists. rewrite Forall_forall in Hg.
  assert (Hone : forall p, In p fragments ->
            (Exists (fun q => covers q a) (subtractPrefix p (Prefix_Masked r))
             <-> covers p a /\ ~ covers (Prefix_Masked r) a)).
  { intros p Hp. destruct (Hg p Hp) as [->|N].
    - rewrite subtractPrefix_zero_base, Exists_cons, Exists_nil.
      pose proof (covers_zeroPrefix a). tauto.
    - destruct (normal_normal_in _ N) as [f Hf].
      destruct (subtractPrefix_normal_base f p (Prefix_Masked r) Hf)
        as (_ & _ & Hcov).
      rewrite (Hcov a Hwf), Masked_idem. reflexivity. }
  split.
  - intros (p & Hp & He). apply (Hone p Hp) in He. destruct He as [Hc Hn].
    split; [exists p; auto | exact Hn].
  - intros [(p & Hp & Hc) Hn]. exists p. split; [exact Hp|].
    apply (Hone p Hp). auto.
Qed.

Lemma subtractFragments_good (fragments : list Prefix) (r : Prefix) :
  Forall good (subtractFragments fragments r).
Proof.
  rewrite subtractFragments_flat_map. apply Forall_flat_map.
  apply Forall_forall. intros p _. apply subtractPrefix_good.
Qed.

Lemma fold_subtractFragments_cover (removes fragments : list Prefix) (a : Addr) :
  Forall good fragments -> addr_wf a ->
  (Exists (fun p => covers p a) (fold_left subtractFragments removes fragments)
   <-> Exists (fun p => covers p a) fragments
       /\ Forall (fun r => ~ covers (Prefix_Masked r) a) removes).
Proof.
  intros Hg Hwf. revert fragments Hg.
  induction removes as [|r removes IH]; intros fragments Hg.
  - rewrite fold_left_nil. split; [intros H; split; [exact H | constructor] | tauto].
  - rewrite fold_left_cons, (IH _ (subtractFragments_good fragments r)).
    rewrite (subtractFragments_cover fragments r a Hg Hwf), Forall_cons_iff.
    tauto.
Qed.

(** X7 (coverage of the list pass).  An address lies in some prefix of
    [subtractPrefixList bases removes] exactly when it lies in some (masked)
    base and in no (masked) exclusion. *)
Theorem subtractPrefixList_coverage (bases removes : list Prefix) (a : Addr) :
  addr_wf a ->
  (Exists (fun p => covers p a) (subtractPrefixList bases removes)
   <-> Exists (fun b => covers (Prefix_Masked b) a) bases
       /\ Forall (fun r => ~ covers (Prefix_Masked r) a) removes).
Proof.
  intros Hwf. rewrite subtractPrefixList_flat_map, Exists_flat_map.
  rewrite !Exists_exists.
  assert (Hone : forall b,
            Exists (fun p => covers p a) (baseFragments b removes)
            <-> covers (Prefix_Masked b) a
                /\ Forall (fun r => ~ covers (Prefix_Masked r) a) removes).
  { intros b. rewrite (proj1 (baseFragments_fold b removes)).
    rewrite fold_subtractFragments_cover
      by (assumption || (constructor; [apply good_Masked | constructor])).
    rewrite Exists_cons, Exists_nil. tauto. }
  split.
  - intros (b & Hb & He). apply Hone in He. destruct He as [Hc Hn].
    split; [exists b; auto | exact Hn].
  - intros [(b & Hb & Hc) Hn]. exists b. split; [exact Hb|].
    apply Hone. auto.
Qed.

Lemma subtractPrefixList_coverage_witness :
  let bases := [mkPrefix (ip4 10 0 0 0) 24] in
  let removes := [mkPrefix (ip4 10 0 0 128) 25; mkPrefix (Addr6 0) 0] in
  let a := ip4 10 0 0 5 in
  Exists (fun p => covers p a) (subtractPrefixList bases removes)
  <-> Exists (fun b => covers (Prefix_Masked b) a) bases
      /\ Forall (fun r => ~ covers (Prefix_Masked r) a) removes.
Proof.
  intros bases removes a.
  apply (subtractPrefixList_coverage bases removes a).
  unfold a, addr_wf, ip4. lia.
Defined.

(** X8 (exclusions are kept out).  No prefix that [subtractPrefixList]
    returns overlaps any (masked) exclusion of the list, of either family. *)
Theorem subtractPrefixList_clear (bases removes : list Prefix) (p r : Prefix) :
  In p (subtractPrefixList bases removes) -> In r removes ->
  Prefix_Overlaps p (Prefix_Masked r) = false.
Proof.
  intros Hp Hr. rewrite subtractPrefixList_flat_map in Hp.
  apply in_flat_map in Hp. destruct Hp as (b & _ & Hp).
  rewrite (proj1 (baseFragments_fold b removes)) in Hp.
  assert (H0 : Forall (fun q => good q /\ forall r', In r' [] -> clear_of q r')
                      [Prefix_Masked b]).
  { constructor; [|constructor]. split; [apply good_Masked | intros r' []]. }
  pose proof (fold_subtractFragments_clear removes [] [Prefix_Masked b] H0) as H.
  rewrite app_nil_l, Forall_forall in H.
  destruct (H p Hp) as [_ Hc]. exact (Hc r Hr).
Qed.

Lemma subtractPrefixList_clear_witness :
  Prefix_Overlaps (mkPrefix (ip4 10 0 0 0) 25)
                  (Prefix_Masked (mkPrefix (ip4 10 0 0 129) 25)) = false.
Proof.
  apply (subtractPrefixList_clear
           [mkPrefix (ip4 10 0 0 0) 24] [mkPrefix (ip4 10 0 0 129) 25]).
  - vm_compute. left. reflexivity.
  - left. reflexivity.
Defined.

Lemma StronglySorted_flat_map {A : Type} (R : A -> A -> Prop)
      (g : A -> list A) (l : list A) :
  StronglySorted R l ->
  (forall p, In p l -> StronglySorted R (g p)) ->
  (forall p q, In p l -> In q l -> R p q ->
               forall p' q', In p' (g p) -> In q' (g q) -> R p' q') ->
  StronglySorted R (flat_map g l).
Proof.
  induction 1 as [|x l Hs IH Hx]; intros Hg Hin; cbn [flat_map]; [constructor|].
  apply StronglySorted_app.
  - apply Hg. now left.
  - apply IH.
    + intros p Hp. apply Hg. now right.
    + intros p q Hp Hq. apply Hin; now right.
  - intros p' q' Hp' Hq'. apply in_flat_map in Hq'. destruct Hq' as (q & Hq & Hq').
    rewrite Forall_forall in Hx.
    apply (Hin x q); auto; [now left | now right].
Qed.

Lemma subtractFragments_in_order (fragments : list Prefix) (r : Prefix) :
  in_order fragments -> in_order (subtractFragments fragments r).
Proof.
  intros [Hz|(f & Hn & Hs)]; rewrite subtractFragments_flat_map.
  - left. apply Forall_flat_map. eapply Forall_impl; [|exact Hz].
    intros p ->. rewrite subtractPrefix_zero_base. now constructor.
  - right. exists f. rewrite Forall_forall in Hn. split.
    + apply Forall_flat_map. apply Forall_forall. intros p Hp.
      now apply (subtractPrefix_normal_base f p _ (Hn p Hp)).
    + apply StronglySorted_flat_map; [exact Hs | |].
      * intros p Hp. now apply (subtractPrefix_normal_base f p _ (Hn p Hp)).
      * intros p q Hp Hq Hb p' q' Hp' Hq' x y Hx Hy Hcx Hcy.
        assert (Hwx : addr_wf (addr_of f x)) by (destruct f; exact Hx).
        assert (Hwy : addr_wf (addr_of f y)) by (destruct f; exact Hy).
        destruct (subtractPrefix_normal_base f p (Prefix_Masked r) (Hn p Hp))
          as (_ & _ & Hcp).
        destruct (subtractPrefix_normal_base f q (Prefix_Masked r) (Hn q Hq))
          as (_ & _ & Hcq).
        apply (Hb x y Hx Hy).
        -- apply (Hcp _ Hwx). apply Exists_exists. eauto.
        -- apply (Hcq _ Hwy). apply Exists_exists. eauto.
Qed.

Lemma baseFragments_in_order (b : Prefix) (removes : list Prefix) :
  in_order (baseFragments b removes).
Proof.
  rewrite (proj1 (baseFragments_fold b removes)).
  assert (H : in_order [Prefix_Masked b]).
  { destruct (good_Masked b) as [E|N].
    - left. now constructor.
    - right. destruct (normal_normal_in _ N) as [f Hf]. exists f.
      split; repeat constructor. exact Hf. }
  revert H. generalize [Prefix_Masked b].
  induction removes as [|r removes IH]; intros fragments H.
  - now rewrite fold_left_nil.
  - rewrite fold_left_cons. apply IH. now apply subtractFragments_in_order.
Qed.

(** X9 (address order for one base).  Whatever the exclusion list, the
    fragments that [subtractPrefixList] returns for one base come in address
    order: every address of an earlier fragment is lower than every address
    of a later one; so no address lies in two of them. *)
Theorem subtractPrefixList_base_order (b : Prefix) (removes : list Prefix)
        (i j : nat) (p q : Prefix) (a a' : Addr) :
  (i < j)%nat ->
  nth_error (subtractPrefixList [b] removes) i = Some p ->
  nth_error (subtractPrefixList [b] removes) j = Some q ->
  addr_wf a -> addr_wf a' -> covers p a -> covers q a' ->
  Addr_Less a a' = true.
Proof.
  rewrite subtractPrefixList_single.
  intros Hij Hi Hj Ha Ha' Hpa Hqa.
  destruct (baseFragments_in_order b removes) as [Hz|(f & Hn & Hs)];
    rewrite Forall_forall in *.
  - rewrite (Hz p (nth_error_In _ _ Hi)) in Hpa.
    now destruct (covers_zeroPrefix a).
  - pose proof (Hn p (nth_error_In _ _ Hi)) as Hp.
    pose proof (Hn q (nth_error_In _ _ Hj)) as Hq.
    destruct (covers_family _ _ _ Hp Ha Hpa) as (x & -> & Hx).
    destruct (covers_family _ _ _ Hq Ha' Hqa) as (y & -> & Hy).
    apply Addr_Less_of.
    exact (StronglySorted_nth _ _ Hs i j p q Hij Hi Hj x y Hx Hy Hpa Hqa).
Qed.

Lemma subtractPrefixList_base_order_witness :
  Addr_Less (ip4 10 0 0 3) (ip4 10 0 0 200) = true.
Proof.
  refine (subtractPrefixList_base_order
            (mkPrefix (ip4 10 0 0 0) 24)
            [mkPrefix (ip4 10 0 0 64) 26; mkPrefix (ip4 10 0 0 128) 26]
            0 1 (mkPrefix (ip4 10 0 0 0) 26) (mkPrefix (ip4 10 0 0 192) 26)
            (ip4 10 0 0 3) (ip4 10 0 0 200) _ _ _ _ _ _ _);
    try lia; try (vm_compute; reflexivity); unfold addr_wf, ip4; lia.
Defined.

(** ** The list driver: composition *)

Lemma fold_subtractFragments_flat_map (removes fragments : list Prefix) :
  fold_left subtractFragments removes fragments
  = flat_map (fun f => fold_left subtractFragments removes [f]) fragments.
Proof.
  revert fragments. induction removes as [|r removes IH]; intros fragments.
  - rewrite fold_left_nil. symmetry. apply flat_map_singleton.
    intros x _. apply fold_left_nil.
  - rewrite fold_left_cons, IH, subtractFragments_flat_map, flat_map_flat_map.
    apply flat_map_ext. intros p.
    rewrite fold_left_cons, subtractFragments_flat_map, flat_map_single.
    symmetry. apply IH.
Qed.

Lemma baseFragments_good_start (p : Prefix) (removes : list Prefix) :
  good p -> baseFragments p removes = fold_left subtractFragments removes [p].
Proof.
  intros Hg. rewrite (proj1 (baseFragments_fold p removes)).
  pose proof (good_masked p Hg) as Hm. unfold masked in Hm. now rewrite Hm.
Qed.

(** X10 (exclusions compose).  Applying the exclusions [r1 ++ r2] in one
    pass gives the list that applying [r1] and then, to the result, [r2]
    gives. *)
Theorem subtractPrefixList_app_removes (bases r1 r2 : list Prefix) :
  subtractPrefixList bases (r1 ++ r2)
  = subtractPrefixList (subtractPrefixList bases r1) r2.
Proof.
  rewrite !subtractPrefixList_flat_map, flat_map_flat_map.
  apply flat_map_ext. intros b.
  rewrite (proj1 (baseFragments_fold b (r1 ++ r2))), fold_left_app.
  rewrite <- (proj1 (baseFragments_fold b r1)).
  rewrite fold_subtractFragments_flat_map.
  pose proof (proj2 (baseFragments_fold b r1)) as Hfit.
  induction (baseFragments b r1) as [|p l IH]; [reflexivity|].
  cbn [flat_map]. inversion Hfit as [|? ? Hp Hl]; subst.
  rewrite (baseFragments_good_start p r2 (fits_good b p Hp)).
  f_equal. now apply IH.
Qed.


(** ** The parser of the exclusion specification *)

Lemma Split_from_not_nil (cur s : string) (sep : ascii) :
  Split_from cur s sep <> [].
Proof.
  revert cur. induction s as [|c s IH]; intros cur; cbn [Split_from].
  - discriminate.
  - destruct (Ascii.eqb c sep); [discriminate | apply IH].
Qed.

Lemma prefixFromAddr_good (a : Addr) : addr_wf a -> good (prefixFromAddr a).
Proof.
  intros Hwf. destruct (addr_wf_cases a Hwf) as [->|(f & v & -> & Hv)].
  - now left.
  - right. assert (E : prefixFromAddr (addr_of f v) = prefix_of f v (width f)).
    { unfold prefixFromAddr.
      destruct f; cbn [addr_of Addr_Is4 width];
        [apply (PrefixFrom_of V4) | apply (PrefixFrom_of V6)]; cbn [width]; lia. }
    rewrite E. constructor. now apply aligned_host.
Qed.

Section ParserProperties.

Variable TrimSpace : string -> string.
Variable ParsePrefix : string -> option Prefix.
Variable ParseAddr : string -> option Addr.
Variable resolveHostname : string -> option string.

Lemma splitCommaList_loop_Err (s : string) (splits out : list string) (e : error) :
  splitCommaList_loop TrimSpace s splits out = Err e ->
  e = ErrInvalidListEntry s
  /\ exists t, In t splits /\ TrimSpace t = EmptyString.
Proof.
  revert out. induction splits as [|t splits IH]; intros out;
    cbn [splitCommaList_loop]; [discriminate|].
  destruct (String.length (TrimSpace t) =? 0)%nat eqn:E.
  - intros H. injection H as <-. split; [reflexivity|].
    exists t. split; [now left | now apply length_zero_empty].
  - intros H. destruct (IH _ H) as (-> & t' & Ht' & Hempty).
    split; [reflexivity|]. exists t'. split; [now right | exact Hempty].
Qed.

(** X11 (tokens of the list).  [splitCommaList] returns the comma-separated
    tokens trimmed, in order, when none of them trims to empty: then there
    is at least one part and no part is empty.  Otherwise it returns the
    invalid-list-entry error, which carries the whole string. *)
Theorem splitCommaList_spec (s : string) :
  match splitCommaList TrimSpace s with
  | Ok parts =>
      parts = map TrimSpace (Split s comma)
      /\ parts <> []
      /\ Forall (fun part => part <> EmptyString) parts
  | Err e =>
      e = ErrInvalidListEntry s
      /\ exists t, In t (Split s comma) /\ TrimSpace t = EmptyString
  end.
Proof.
  unfold splitCommaList.
  destruct (splitCommaList_loop TrimSpace s (Split s comma) []) as [parts|e] eqn:E.
  - destruct (splitCommaList_loop_cases TrimSpace s (Split s comma) [])
      as [[e He]|[Hok Hne]]; [congruence|].
    rewrite Hok in E. injection E as <-. cbn [app].
    split; [reflexivity|]. split.
    + intros H. apply map_eq_nil in H. now apply (Split_from_not_nil _ _ _ H).
    + apply Forall_forall. intros part Hp. apply in_map_iff in Hp.
      destruct Hp as (t & <- & Ht). now apply Hne.
  - now apply splitCommaList_loop_Err in E.
Qed.

Lemma parseWstunnelHostExcludes_loop_Ok (parts : list string)
      (excludes out : list Prefix) :
  parseWstunnelHostExcludes_loop ParsePrefix ParseAddr resolveHostname
                                 parts excludes = Ok out ->
  exists more, out = excludes ++ more /\ Forall2 (exclusion_of ParsePrefix ParseAddr resolveHostname) parts more.
Proof.
  revert excludes. induction parts as [|part parts IH]; intros excludes;
    cbn [parseWstunnelHostExcludes_loop].
  - intros H. injection H as <-. exists []. now rewrite app_nil_r.
  - assert (Hstep : forall ex,
              exclusion_of ParsePrefix ParseAddr resolveHostname part ex ->
              parseWstunnelHostExcludes_loop ParsePrefix ParseAddr resolveHostname
                                             parts (excludes ++ [ex]) = Ok out ->
              exists more, out = excludes ++ more
                           /\ Forall2 (exclusion_of ParsePrefix ParseAddr resolveHostname) (part :: parts) more).
    { intros ex Hex H. destruct (IH _ H) as (more & -> & HF).
      exists (ex :: more). rewrite <- app_assoc. split; [reflexivity|].
      now constructor. }
    destruct (Contains_byte part slash) eqn:Es.
    + destruct (ParsePrefix part) as [p|] eqn:Ep; [|discriminate].
      apply Hstep. left. split; [exact Es|]. eauto.
    + destruct (ParseAddr part) as [addr|] eqn:Ea.
      * apply Hstep. right. split; [exact Es|]. eauto.
      * destruct (resolveHostname part) as [res|] eqn:Er; [|discriminate].
        destruct (ParseAddr res) as [addr|] eqn:Ea'; [|discriminate].
        apply Hstep. right. split; [exact Es|]. exists addr.
        split; [reflexivity|]. right. eauto.
Qed.

(** X12 (one exclusion per token).  When [parseWstunnelHostExcludes]
    succeeds it returns one exclusion per token, in token order: the masked
    prefix of a CIDR token, the host prefix of an address token or of the
    address a host name resolves to.  There is at least one, and, the
    parsed addresses being well formed, every exclusion is in masked
    form. *)
Theorem parseWstunnelHostExcludes_Ok (s : string) (excludes : list Prefix) :
  (forall part addr, ParseAddr part = Some addr -> addr_wf addr) ->
  parseWstunnelHostExcludes TrimSpace ParsePrefix ParseAddr resolveHostname s
  = Ok excludes ->
  Forall2 (exclusion_of ParsePrefix ParseAddr resolveHostname) (map TrimSpace (Split s comma)) excludes
  /\ List.length excludes = List.length (Split s comma)
  /\ excludes <> []
  /\ Forall masked excludes.
Proof.
  intros Hwf H. unfold parseWstunnelHostExcludes in H.
  pose proof (splitCommaList_spec s) as Hs.
  destruct (splitCommaList TrimSpace s) as [parts|e]; [|discriminate].
  destruct Hs as (-> & Hne & _).
  apply parseWstunnelHostExcludes_loop_Ok in H.
  destruct H as (more & -> & HF). cbn [app].
  assert (Hlen : List.length more = List.length (Split s comma)).
  { apply Forall2_length in HF. now rewrite length_map in HF. }
  split; [exact HF|]. split; [exact Hlen|]. split.
  - intros E. apply Hne. rewrite E in Hlen.
    destruct (Split s comma); [reflexivity | discriminate Hlen].
  - clear Hlen Hne. induction HF as [|part ex ps exs Hex _ IH]; constructor; [|exact IH].
    apply good_masked.
    destruct Hex as [(_ & p & _ & ->)|(_ & addr & -> & Hp)].
    + apply good_Masked.
    + apply prefixFromAddr_good.
      destruct Hp as [Hp|(_ & res & _ & Hp)]; eapply Hwf; eauto.
Qed.

End ParserProperties.

Lemma demo_ParseAddr_wf (part : string) (addr : Addr) :
  demo_ParseAddr part = Some addr -> addr_wf addr.
Proof.
  unfold demo_ParseAddr.
  destruct (String.eqb part "10.0.0.1"); [intros H; injection H as <-; cbn; lia|].
  destruct (String.eqb part "192.168.1.1"); [intros H; injection H as <-; cbn; lia|].
  discriminate.
Qed.

Lemma parseWstunnelHostExcludes_Ok_witness :
  let s := "10.0.0.0/24, vpn.example.com"%string in
  let excludes := [mkPrefix (ip4 10 0 0 0) 24; mkPrefix (ip4 192 168 1 1) 32] in
  Forall2 (exclusion_of demo_ParsePrefix demo_ParseAddr demo_resolveHostname)
          (map TrimSpace_ascii (Split s comma)) excludes
  /\ List.length excludes = List.length (Split s comma)
  /\ excludes <> []
  /\ Forall masked excludes.
Proof.
  intros s excludes.
  apply (parseWstunnelHostExcludes_Ok
           TrimSpace_ascii demo_ParsePrefix demo_ParseAddr demo_resolveHostname
           s excludes).
  - exact demo_ParseAddr_wf.
  - vm_compute. reflexivity.
Defined.

(** ** The rewriter on a specification that parses *)



Lemma length_zero_nil {A : Type} (l : list A) :
  (List.length l =? 0)%nat = true <-> l = [].
Proof.
  destruct l; cbn [List.length Nat.eqb]; split; intros H;
    try reflexivity; discriminate.
Qed.

Section RewriterOk.

Variable Prefix_String : Prefix -> string.




End RewriterOk.

Section RewriterProperties.

Variable TrimSpace : string -> string.
Variable ParsePrefix : string -> option Prefix.
Variable ParseAddr : string -> option Addr.
Variable resolveHostname : string -> option string.
Variable Prefix_String : Prefix -> string.




End RewriterProperties.



(** ** The summary of the allowed IPs *)

Lemma concat_cons_nonempty (sep x : string) (l : list string) :
  x <> EmptyString -> String.concat sep (x :: l) <> EmptyString.
Proof.
  intros Hx. destruct x as [|c x]; [contradiction|].
  destruct l; cbn; discriminate.
Qed.

Section SummaryProperties.

Variable Prefix_String : Prefix -> string.

Lemma allowedIPsSummary_loop_acc (i : nat) (peers : list Peer)
      (parts : list string) :
  allowedIPsSummary_loop Prefix_String i peers parts
  = parts ++ allowedIPsSummary_loop Prefix_String i peers [].
Proof.
  revert i parts. induction peers as [|peer rest IH]; intros i parts;
    cbn [allowedIPsSummary_loop].
  - now rewrite app_nil_r.
  - destruct (List.length (AllowedIPs peer) =? 0)%nat; [apply IH|].
    rewrite (IH (S i) (parts ++ _)), (IH (S i) ([] ++ _)).
    now rewrite <- app_assoc.
Qed.

Lemma allowedIPsSummary_loop_empty (i : nat) (peers : list Peer) :
  Forall (fun peer => AllowedIPs peer = []) peers ->
  allowedIPsSummary_loop Prefix_String i peers [] = [].
Proof.
  intros H. revert i. induction H as [|peer rest Hp _ IH]; intros i;
    cbn [allowedIPsSummary_loop]; [reflexivity|].
  rewrite Hp. cbn [List.length Nat.eqb]. apply IH.
Qed.

(** X15 (an empty summary).  [allowedIPsSummary] is the empty string
    exactly for the nil configuration and for a configuration none of whose
    peers has allowed IPs. *)
Theorem allowedIPsSummary_empty_iff (conf : option Config) :
  allowedIPsSummary Prefix_String conf = EmptyString
  <-> match conf with
      | None => True
      | Some c => Forall (fun peer => AllowedIPs peer = []) (Peers c)
      end.
Proof.
  destruct conf as [c|]; cbn [allowedIPsSummary]; [|tauto].
  split.
  - generalize 0%nat. induction (Peers c) as [|peer rest IH]; intros i H;
      [constructor|].
    cbn [allowedIPsSummary_loop] in H.
    destruct (List.length (AllowedIPs peer) =? 0)%nat eqn:E.
    + constructor; [now apply length_zero_nil | now apply (IH (S i))].
    + exfalso. rewrite allowedIPsSummary_loop_acc in H.
      cbn [app] in H. revert H. apply concat_cons_nonempty. discriminate.
  - intros H. now rewrite allowedIPsSummary_loop_empty.
Qed.

(** X16 (numbering and rendering in the summary).  When one peer alone has
    allowed IPs, the summary is [peer N: list], where [N] is the 1-based
    position of the peer among all peers, those without allowed IPs
    counted, and [list] is what [prefixListToString] of package conf
    renders. *)
Theorem allowedIPsSummary_single (c : Config) (before after : list Peer)
        (peer : Peer) :
  Peers c = before ++ peer :: after ->
  Forall (fun p => AllowedIPs p = []) before ->
  Forall (fun p => AllowedIPs p = []) after ->
  AllowedIPs peer <> [] ->
  allowedIPsSummary Prefix_String (Some c)
  = sprintf_peer (List.length before + 1)
                 (prefixListToString Prefix_String (AllowedIPs peer)).
Proof.
  intros E Hb Ha Hne. cbn [allowedIPsSummary]. rewrite E. clear E.
  assert (H : forall i,
            allowedIPsSummary_loop Prefix_String i (before ++ peer :: after) []
            = [sprintf_peer (i + List.length before + 1)
                            (prefixListToString Prefix_String (AllowedIPs peer))]).
  { induction Hb as [|p0 rest Hp _ IH]; intros i.
    - cbn [app allowedIPsSummary_loop]. unfold prefixListToString.
      destruct (List.length (AllowedIPs peer) =? 0)%nat eqn:El.
      { apply length_zero_nil in El. contradiction. }
      rewrite allowedIPsSummary_loop_acc.
      rewrite (allowedIPsSummary_loop_empty (S i) after Ha).
      rewrite app_nil_r. cbn [app List.length]. do 2 f_equal. lia.
    - cbn [app allowedIPsSummary_loop]. rewrite Hp.
      cbn [List.length Nat.eqb]. rewrite (IH (S i)). do 2 f_equal. lia. }
  rewrite (H 0%nat). reflexivity.
Qed.

End SummaryProperties.

Lemma allowedIPsSummary_single_witness :
  allowedIPsSummary
    demo_Prefix_String
    (Some (mkConfig "" [mkPeer []; mkPeer [mkPrefix (ip4 10 0 0 0) 24]]))
  = sprintf_peer (1 + 1)
                 (prefixListToString demo_Prefix_String
                                     [mkPrefix (ip4 10 0 0 0) 24]).
Proof.
  apply (allowedIPsSummary_single
           demo_Prefix_String
           (mkConfig "" [mkPeer []; mkPeer [mkPrefix (ip4 10 0 0 0) 24]])
           [mkPeer []] [] (mkPeer [mkPrefix (ip4 10 0 0 0) 24])).
  - reflexivity.
  - repeat constructor.
  - constructor.
  - discriminate.
Defined.
